(** * nctx: scope-bound context over AsyncLocalStorage

    A shallow embedding of [createContext] (src/index.ts) and of the platform
    primitives it is written against: JavaScript objects held by reference,
    [structuredClone], [AsyncLocalStorage] and the listener table of an
    [EventEmitter].

    - Execution is synchronous: one world, the heap of objects and the store
      [als.getStore()] would return, is threaded through every call.  A
      callback is a function on worlds that returns or throws.
    - Objects are tables of own enumerable properties held by reference, so
      that aliasing, sharing and cycles are those of the program.  A property
      holds a primitive, a reference to an object, a function, or
      [Object.prototype].
    - Every object is a plain object: what it does not have of its own it
      inherits from [Object.prototype], which the program leaves as the
      platform made it.  A write to a property makes it an own property,
      whatever its name: the setter of [__proto__] is not modelled.
    - [structuredClone] is a memoised copy of the object graph, which fails
      with a [DataCloneError] on a function.
    - The [merge] option is a pure function of the properties of the previous
      store and of the patch, whose result is a new object.
    - The Express middleware runs as one synchronous call: [await] is a call
      that returns or throws, and the response is an emitter passed along. *)

From Stdlib Require Import ZArith String.
From stdpp Require Import base option list strings gmap fin_maps.

Local Open Scope string_scope.
Local Open Scope list_scope.
Local Open Scope nat_scope.

(** * JavaScript data *)

(** Objects live in a heap and are named by their address. *)
Abbreviation loc := nat.

(** Plain structured data is made of primitives and of references to plain
    objects.  A value can also be a function, known by its name and never
    called here, or [Object.prototype] itself: both are what a read along the
    prototype chain returns. *)
Inductive value :=
  | VUndef
  | VNull
  | VBool (b : bool)
  | VNum (n : Z)
  | VStr (s : string)
  | VRef (l : loc)
  | VFun (name : string)
  | VObjectPrototype.

#[global] Instance value_eq_dec : EqDecision value.
Proof. solve_decision. Defined.

(** The own enumerable properties of a plain object. *)
Abbreviation obj := (gmap string value).

(** Objects are never freed: the heap only grows, and the next object is
    allocated at address [length h]. *)
Abbreviation Heap := (list obj).

(** [als] is the value [AsyncLocalStorage.getStore()] would return in the
    current extent: [None] stands for [undefined]. *)
Record world := World { heap : Heap; als : option loc }.

Definition with_heap (h : Heap) (w : world) : world := World h (als w).
Definition with_als (a : option loc) (w : world) : world := World (heap w) a.

(** The properties of the object at [l]. *)
Definition fields (h : Heap) (l : loc) : obj := default ∅ (h !! l).

(** The properties of [Object.prototype], none of them enumerable: the
    constructor, the methods, and the accessor [__proto__], which read on a
    plain object gives [Object.prototype]. *)
Definition Object_prototype : gmap string value :=
  {[ "constructor" := VFun "Object";
     "__defineGetter__" := VFun "Object.prototype.__defineGetter__";
     "__defineSetter__" := VFun "Object.prototype.__defineSetter__";
     "hasOwnProperty" := VFun "Object.prototype.hasOwnProperty";
     "__lookupGetter__" := VFun "Object.prototype.__lookupGetter__";
     "__lookupSetter__" := VFun "Object.prototype.__lookupSetter__";
     "isPrototypeOf" := VFun "Object.prototype.isPrototypeOf";
     "propertyIsEnumerable" := VFun "Object.prototype.propertyIsEnumerable";
     "toString" := VFun "Object.prototype.toString";
     "valueOf" := VFun "Object.prototype.valueOf";
     "__proto__" := VObjectPrototype;
     "toLocaleString" := VFun "Object.prototype.toLocaleString" ]}.

(** [o[k]] on a plain object with the properties [o]: its own property [k],
    and failing that the one it inherits. *)
Definition get_property (o : obj) (k : string) : value :=
  match o !! k with
  | Some v => v
  | None => default VUndef (Object_prototype !! k)
  end.

(** * Computations on a world, which may throw *)

Inductive exn :=
  | Error (msg : string)
  | Thrown (v : value).

Inductive outcome (A : Type) :=
  | Ret (a : A)
  | Throw (e : exn).
Arguments Ret {A} a.
Arguments Throw {A} e.

Definition M (A : Type) : Type := world -> outcome A * world.

Definition ret {A} (a : A) : M A := fun w => (Ret a, w).
Definition throw {A} (e : exn) : M A := fun w => (Throw e, w).
Definition andThen {A B} (m : M A) (k : A -> M B) : M B :=
  fun w => match m w with
           | (Ret a, w') => k a w'
           | (Throw e, w') => (Throw e, w')
           end.

Notation "x <- m ;; k" := (andThen m (fun x => k))
  (at level 100, m at next level, right associativity).
Notation "m ;; k" := (andThen m (fun _ => k))
  (at level 100, right associativity).

(** * Object primitives *)

(** An object literal: a new object with the given properties. *)
Definition new_object (o : obj) : M loc :=
  fun w => (Ret (length (heap w)), with_heap (heap w ++ [o]) w).

(** [Object.keys(o)]. *)
Definition object_keys (l : loc) : M (list string) :=
  fun w => (Ret (map fst (map_to_list (fields (heap w) l))), w).

(** [delete o[k]]. *)
Definition delete_prop (l : loc) (k : string) : M unit :=
  fun w => (Ret tt, with_heap (<[l := delete k (fields (heap w) l)]> (heap w)) w).

(** The properties [Object.assign(target, src)] leaves on [target]. *)
Definition assign (target src : obj) : obj := src ∪ target.

(** [Object.assign(target, src)]. *)
Definition object_assign (target src : loc) : M unit :=
  fun w => (Ret tt,
            with_heap (<[target := assign (fields (heap w) target) (fields (heap w) src)]> (heap w)) w).

(** [for (const k of ks) body(k)]. *)
Fixpoint for_each {A} (ks : list A) (body : A -> M unit) : M unit :=
  match ks with
  | [] => ret tt
  | k :: ks' => body k ;; for_each ks' body
  end.

(** * structuredClone *)

(** The clone memory: which original object each copy stands for. *)
Abbreviation memo := (gmap loc loc).

Definition rename (m : memo) (v : value) : value :=
  match v with
  | VRef l => match m !! l with Some l' => VRef l' | None => v end
  | _ => v
  end.

(** The objects a property list refers to. *)
Definition refs_of (kvs : list (string * value)) : list loc :=
  omap (fun kv => match kv.2 with VRef l => Some l | _ => None end) kvs.

Definition children (o : obj) : list loc := refs_of (map_to_list o).

Fixpoint visit_all (visit : loc -> memo * Heap -> option (memo * Heap))
    (ls : list loc) (s : memo * Heap) : option (memo * Heap) :=
  match ls with
  | [] => Some s
  | l :: ls' =>
      match visit l s with
      | Some s' => visit_all visit ls' s'
      | None => None
      end
  end.

(** What the clone algorithm accepts as a property value: anything but a
    function. *)
Definition cloneable_value (v : value) : bool :=
  match v with
  | VFun _ => false
  | _ => true
  end.

Definition cloneable (o : obj) : bool :=
  forallb (fun kv => cloneable_value kv.2) (map_to_list o).

(** Depth-first copy of the object graph below [l].  An object already in the
    memory is not copied again, so sharing and cycles are preserved; an
    object that holds a function stops the copy.  [n] bounds the depth of
    the descent. *)
Fixpoint copy_graph (n : nat) (l : loc) (s : memo * Heap) : option (memo * Heap) :=
  match s.1 !! l with
  | Some _ => Some s
  | None =>
      match n with
      | O => None
      | S n' =>
          match s.2 !! l with
          | None => None
          | Some o =>
              if cloneable o then
                let l' := length s.2 in
                match visit_all (copy_graph n') (children o) (<[l := l']> s.1, s.2 ++ [∅]) with
                | Some (m, h) => Some (m, <[l' := rename m <$> o]> h)
                | None => None
                end
              else None
          end
      end
  end.

(** [Object.prototype] is cloned as the ordinary object it is.  It has no
    enumerable property of its own: where the objects copied since [n] hold
    it, they are given one new empty object in its place. *)
Definition holds_prototype (o : obj) : bool :=
  existsb (fun kv => bool_decide (kv.2 = VObjectPrototype)) (map_to_list o).

Definition redirect (p : loc) (v : value) : value :=
  match v with
  | VObjectPrototype => VRef p
  | _ => v
  end.

Definition copy_prototype (n : nat) (h : Heap) : Heap :=
  if existsb holds_prototype (drop n h)
  then take n h ++ ((fun o : obj => redirect (length h) <$> o) <$> drop n h) ++ [∅]
  else h.

Definition DataCloneError : exn := Error "DataCloneError".

(** [structuredClone(o)] for an object [o]. *)
Definition structuredClone (l : loc) : M loc :=
  fun w =>
    match copy_graph (S (length (heap w))) l (∅, heap w) with
    | Some (m, h) =>
        match m !! l with
        | Some l' => (Ret l', with_heap (copy_prototype (length (heap w)) h) w)
        | None => (Throw DataCloneError, w)
        end
    | None => (Throw DataCloneError, w)
    end.

(** * AsyncLocalStorage *)

(** [als.getStore()]. *)
Definition als_getStore : M (option loc) := fun w => (Ret (als w), w).

(** [als.run(store, fn)]: [fn] runs with [store] as the current store; the
    store of the caller is put back when [fn] returns or throws. *)
Definition als_run {R} (store : loc) (fn : M R) : M R :=
  fun w =>
    let (r, w') := fn (with_als (Some store) w) in
    (r, with_als (als w) w').

(** * EventEmitter (node:events) *)

Definition listener : Type := list value -> M value.

(** One registered listener; [once_only] marks the entries filed by [once]
    and [prependOnceListener]. *)
Record entry := Entry { event : string; once_only : bool; handler : listener }.

(** A registration method already bound to its emitter, as
    [emitter.on.bind(emitter)] is: called with the event name and the
    listener, it updates the emitter's listener table. *)
Definition registration : Type := string -> listener -> list entry -> M (list entry).

Record EventEmitter := Emitter {
  listeners : list entry;
  addListener : registration;
  on : registration;
  once : registration;
  prependListener : option registration;
  prependOnceListener : option registration
}.

Definition with_listeners (t : list entry) (e : EventEmitter) : EventEmitter :=
  Emitter t (addListener e) (on e) (once e) (prependListener e) (prependOnceListener e).

(** [new EventEmitter()]: the methods of the platform file the listener they
    are given, at the end of the table or at its front. *)
Definition append_listener (o : bool) : registration :=
  fun evt l t => ret (t ++ [Entry evt o l]).
Definition prepend_listener (o : bool) : registration :=
  fun evt l t => ret (Entry evt o l :: t).

Definition new_EventEmitter : EventEmitter :=
  Emitter [] (append_listener false) (append_listener false) (append_listener true)
    (Some (prepend_listener false)) (Some (prepend_listener true)).

(** [emitter.m(evt, l)] for a registration method [m] of [e]. *)
Definition register (m : EventEmitter -> registration) (e : EventEmitter)
    (evt : string) (l : listener) : M EventEmitter :=
  t <- m e evt l (listeners e) ;; ret (with_listeners t e).

Fixpoint call_listeners (hs : list listener) (args : list value) : M unit :=
  match hs with
  | [] => ret tt
  | h :: hs' => _ <- h args ;; call_listeners hs' args
  end.

(** [emitter.emit(evt, ...args)]: the listeners of [evt] are called in table
    order; a listener that throws ends the emission.  Once-only entries of
    [evt] leave the table. *)
Definition emit (e : EventEmitter) (evt : string) (args : list value) : M EventEmitter :=
  let hit := filter (fun en => event en = evt) (listeners e) in
  call_listeners (handler <$> hit) args ;;
  ret (with_listeners
         (filter (fun en => negb (bool_decide (event en = evt) && once_only en) = true) (listeners e)) e).

(** * createContext *)

Module Ctx.

(** [ContextOptions]: [merge] is a pure function of the properties of the
    previous store and of the patch, giving the properties of a new object. *)
Record ContextOptions := { options_merge : option (obj -> obj -> obj) }.

(** [opts?: { live?: boolean }]. *)
Record BindOptions := { live : option bool }.

(** [Object.assign({}, prev, patch)]. *)
Definition defaultMerge (prev patch : obj) : obj := assign (assign ∅ prev) patch.

(** The error of [use]: a plain [Error] told apart by its message. *)
Definition NoActiveContextError : exn :=
  Error "No active context. Make sure to wrap your code with ctx.run(...) or use the provided middleware.".

Section createContext.
Variable options : option ContextOptions.

(** [options?.merge ?? defaultMerge]. *)
Definition merge : obj -> obj -> obj :=
  match options with
  | Some {| options_merge := Some f |} => f
  | _ => defaultMerge
  end.

(** [merge(prev, patch)] on two objects of the heap. *)
Definition call_merge (prev patch : loc) : M loc :=
  fun w => new_object (merge (fields (heap w) prev) (fields (heap w) patch)) w.

Definition getStore : M (option loc) := als_getStore.

Definition has : M bool :=
  store <- getStore ;;
  ret (match store with Some _ => true | None => false end).

Definition get (key : option string) : M value :=
  store <- getStore ;;
  match store with
  | None => ret VUndef
  | Some l =>
      match key with
      | Some k => fun w => (Ret (get_property (fields (heap w) l) k), w)
      | None => ret (VRef l)
      end
  end.

Definition set (patch : loc) : M unit :=
  store <- getStore ;;
  match store with
  | None => ret tt
  | Some l =>
      next <- call_merge l patch ;;
      ks <- object_keys l ;;
      for_each ks (delete_prop l) ;;
      object_assign l next
  end.

Definition run {R} (initial : loc) (fn : M R) : M R :=
  c <- structuredClone initial ;;
  als_run c fn.

Definition withScope {R} (patch : loc) (fn : M R) : M R :=
  current <- getStore ;;
  prev <- match current with
          | Some l => ret l
          | None => new_object ∅
          end ;;
  next <- call_merge prev patch ;;
  c <- structuredClone next ;;
  als_run c fn.

(** [opts?.live] as a condition. *)
Definition is_live (opts : option BindOptions) : bool :=
  match opts with
  | Some {| live := Some true |} => true
  | _ => false
  end.

Definition bind {A B} (fn : A -> M B) (opts : option BindOptions) : M (A -> M B) :=
  captured <- als_getStore ;;
  match captured with
  | None => ret fn
  | Some c =>
      let getBoundStore : M loc :=
        if is_live opts then ret c else structuredClone c in
      let wrapped : A -> M B :=
        fun args => s <- getBoundStore ;; als_run s (fn args) in
      ret wrapped
  end.

Definition bindEmitter (emitter : EventEmitter) (opts : option BindOptions) : M EventEmitter :=
  let prebind : listener -> M listener := fun fn => bind fn opts in
  let add := addListener emitter in
  let on_ := on emitter in
  let once_ := once emitter in
  let prepend := prependListener emitter in
  let prependOnce := prependOnceListener emitter in
  let wrap (orig : registration) : registration :=
    fun evt l t => l' <- prebind l ;; orig evt l' t in
  ret (Emitter (listeners emitter) (wrap add) (wrap on_) (wrap once_)
         (wrap <$> prepend) (wrap <$> prependOnce)).

Definition use : M value :=
  store <- getStore ;;
  match store with
  | None => throw NoActiveContextError
  | Some l => ret (VRef l)
  end.

End createContext.

End Ctx.

(** * Predicates of the proofs *)

(** Plain data: a primitive or a reference to an object. *)
Definition primitive (v : value) : bool :=
  match v with
  | VRef _ | VFun _ | VObjectPrototype => false
  | _ => true
  end.

Definition plain_value (v : value) : bool :=
  match v with
  | VFun _ | VObjectPrototype => false
  | _ => true
  end.

Definition plain (o : obj) : bool :=
  forallb (fun kv => plain_value kv.2) (map_to_list o).

(** A heap of plain data: every object of [h] holds plain data, and every
    reference it holds points into [h]. *)
Definition closed (h : Heap) : Prop :=
  Forall (fun o => plain o = true ∧ Forall (fun c => c < length h) (children o)) h.

#[global] Instance closed_dec h : Decision (closed h).
Proof. unfold closed. apply _. Defined.

(** [reach h l x]: [x] is [l] or an object met by following references
    from [l]. *)
Inductive reach (h : Heap) : loc → loc → Prop :=
  | reach_here l : reach h l l
  | reach_field l o c x :
      h !! l = Some o → c ∈ children o → reach h c x → reach h l x.

(** A world of plain data, whose current store is in the heap. *)
Definition wf (w : world) : Prop :=
  closed (heap w) ∧ ∀ l, als w = Some l → l < length (heap w).

(** A merge function builds its result from what it is given: what the
    result holds that is not a primitive, the previous store or the patch
    holds. *)
Definition merge_sound (options : option Ctx.ContextOptions) : Prop :=
  ∀ prev patch k v, Ctx.merge options prev patch !! k = Some v → primitive v = false →
    (∃ k', prev !! k' = Some v) ∨ (∃ k', patch !! k' = Some v).

(** What [merge] is given for the current store: its properties, or those of
    [{}] when no scope is active. *)
Definition current_fields (w : world) : obj :=
  match als w with
  | Some l => fields (heap w) l
  | None => ∅
  end.

(** The end of [als.run]: the outcome of the callback leaves with the store
    of the caller current again. *)
Definition leave {R} (a : option loc) (res : outcome R * world) : outcome R * world :=
  (res.1, with_als a res.2).

(** What holds of the memory and of the heap all along a copy started on
    [h0]: the objects of [h0] are in place, and the memory sends objects of
    [h0] to distinct objects allocated since. *)
Record clone_inv (h0 : Heap) (s : memo * Heap) : Prop := {
  inv_length : length h0 ≤ length s.2;
  inv_old : ∀ i, i < length h0 → s.2 !! i = h0 !! i;
  inv_range : ∀ a a', s.1 !! a = Some a' →
    a < length h0 ∧ length h0 ≤ a' < length s.2;
  inv_inj : ∀ a b a', s.1 !! a = Some a' → s.1 !! b = Some a' → a = b;
  inv_onto : ∀ i, length h0 ≤ i → i < length s.2 → ∃ a, s.1 !! a = Some i
}.

(** What a visit adds: the memory and the heap grow, no object in place is
    written, and each object that entered the memory holds the renamed
    properties of its original. *)
Record clone_step (h0 : Heap) (s s' : memo * Heap) : Prop := {
  step_memo : s.1 ⊆ s'.1;
  step_length : length s.2 ≤ length s'.2;
  step_keep : ∀ i, i < length s.2 → s'.2 !! i = s.2 !! i;
  step_done : ∀ a a', s'.1 !! a = Some a' → s.1 !! a = None →
    ∃ o, h0 !! a = Some o
         ∧ s'.2 !! a' = Some (rename s'.1 <$> o)
         ∧ ∀ c, c ∈ children o → is_Some (s'.1 !! c)
}.

(** [deep_copy h h' m]: [h'] is [h] followed by new objects, and [m] sends
    each copied object of [h] to its copy, which holds the same properties
    with every reference redirected to the copy of its target. *)
Record deep_copy (h h' : Heap) (m : memo) : Prop := {
  copy_length : length h ≤ length h';
  copy_keeps : ∀ i, i < length h → h' !! i = h !! i;
  copy_fresh : ∀ a a', m !! a = Some a' → a < length h ∧ length h ≤ a' < length h';
  copy_inj : ∀ a b a', m !! a = Some a' → m !! b = Some a' → a = b;
  copy_onto : ∀ i, length h ≤ i → i < length h' → ∃ a, m !! a = Some i;
  copy_cells : ∀ a a', m !! a = Some a' →
    ∃ o, h !! a = Some o ∧ h' !! a' = Some (rename m <$> o)
         ∧ ∀ c, c ∈ children o → is_Some (m !! c)
}.

(** Whatever the heap, a copy only appends objects, and what enters the
    memory is sent to one of them. *)
Definition appends (s s' : memo * Heap) : Prop :=
  length s.2 ≤ length s'.2
  ∧ (∀ i, i < length s.2 → s'.2 !! i = s.2 !! i)
  ∧ ∀ a a', s'.1 !! a = Some a' →
      s.1 !! a = Some a' ∨ length s.2 ≤ a' < length s'.2.

(** What the [delete] loop of [set] leaves of an object. *)
Definition delete_all (ks : list string) (o : obj) : obj :=
  foldl (fun acc k => delete k acc) o ks.

(** [confined fn]: [fn] leaves the current store of its caller current,
    never frees an object, and writes to no object in place other than the
    store that is current when it is called. *)
Record confined {R} (fn : M R) : Prop := {
  conf_als : ∀ w, als (fn w).2 = als w;
  conf_grow : ∀ w, length (heap w) ≤ length (heap (fn w).2);
  conf_keep : ∀ w i, i < length (heap w) → als w ≠ Some i →
    heap (fn w).2 !! i = heap w !! i
}.

(** The five ways to register a listener. *)
Inductive variant := AddListener | On | Once | PrependListener | PrependOnceListener.

(** The method of [e] behind each of them, when [e] has it. *)
Definition method (v : variant) (e : EventEmitter) : option registration :=
  match v with
  | AddListener => Some (addListener e)
  | On => Some (on e)
  | Once => Some (once e)
  | PrependListener => prependListener e
  | PrependOnceListener => prependOnceListener e
  end.

(** What [bind(l, opts)] returns in a scope whose store is [s]. *)
Definition bound_to (opts : option Ctx.BindOptions) (s : loc) (l : listener) : listener :=
  fun args =>
    sb <- (if Ctx.is_live opts then ret s else structuredClone s) ;;
    als_run sb (l args).

(** * Worlds and scenarios of the test suite *)

Definition empty_world : world := World [] None.

Definition snapshot_opts : option Ctx.BindOptions := None.
Definition live_opts : option Ctx.BindOptions := Some {| Ctx.live := Some true |}.

Definition explicit_snapshot_opts : option Ctx.BindOptions :=
  Some {| Ctx.live := Some false |}.

(** [o[k] = v]. *)
Definition put_prop (l : loc) (k : string) (v : value) : M unit :=
  fun w => (Ret tt, with_heap (<[l := <[k := v]> (fields (heap w) l)]> (heap w)) w).

(** [ctx.set({ ...o })] with an object literal. *)
Definition set_literal (options : option Ctx.ContextOptions) (o : obj) : M unit :=
  patch <- new_object o ;; Ctx.set options patch.

(** [ctx.get()] read property by property, as [toEqual] compares it. *)
Definition get_fields : M obj :=
  s <- Ctx.get None ;;
  fun w => match s with
           | VRef l => (Ret (fields (heap w) l), w)
           | _ => (Ret ∅, w)
           end.

(** "has() reflects active context". *)
Definition test_has : M (bool * bool * bool) :=
  before <- Ctx.has ;;
  initial <- new_object {[ "a" := VNum 1 ]} ;;
  inside <- Ctx.run initial Ctx.has ;;
  after <- Ctx.has ;;
  ret (before, inside, after).

(** "get() returns full store and by key; set() does shallow merge". *)
Definition test_shallow_merge : M (value * obj * obj) :=
  b <- new_object {[ "x" := VNum 1 ]} ;;
  initial <- new_object {[ "a" := VNum 1; "b" := VRef b ]} ;;
  Ctx.run initial (
    b' <- new_object {[ "y" := VNum 2 ]} ;;
    patch <- new_object {[ "b" := VRef b' ]} ;;
    Ctx.set None patch ;;
    a <- Ctx.get (Some "a") ;;
    s <- Ctx.use ;;
    fun w => match s with
             | VRef l => (Ret (a, fields (heap w) l, fields (heap w) b'), w)
             | _ => (Ret (a, ∅, ∅), w)
             end).

(** "with() creates a nested scope and does not leak to parent". *)
Definition test_with : M (obj * obj * obj * value * obj) :=
  initial <- new_object {[ "a" := VNum 1; "b" := VNum 2 ]} ;;
  Ctx.run initial (
    s0 <- get_fields ;;
    patch <- new_object {[ "b" := VNum 3 ]} ;;
    r <- Ctx.withScope None patch (
      s1 <- get_fields ;;
      set_literal None {[ "a" := VNum 10 ]} ;;
      s2 <- get_fields ;;
      a <- Ctx.get (Some "a") ;;
      ret (s1, s2, a)) ;;
    s3 <- get_fields ;;
    ret (s0, r.1.1, r.1.2, r.2, s3)).

(** "bind() uses live store by default (current implementation)" and
    "bind() can capture live store when opts.live = true". *)
Definition test_bind (opts : option Ctx.BindOptions) (x' : Z) : M (value * value) :=
  initial <- new_object {[ "x" := VNum 1 ]} ;;
  b <- Ctx.run initial (
    bound <- Ctx.bind (fun _ : unit => Ctx.get (Some "x")) opts ;;
    set_literal None {[ "x" := VNum x' ]} ;;
    x <- Ctx.get (Some "x") ;;
    ret (bound, x)) ;;
  r <- b.1 tt ;;
  ret (b.2, r).

(** "bindEmitter() ensures listeners observe context": the listener records
    what it reads in the object [seen]. *)
Definition test_bindEmitter (opts : option Ctx.BindOptions) (x0 x' : Z) : M value :=
  seen <- new_object ∅ ;;
  initial <- new_object {[ "x" := VNum x0 ]} ;;
  Ctx.run initial (
    emitter <- Ctx.bindEmitter new_EventEmitter opts ;;
    emitter <- register on emitter "evt"
      (fun _ => x <- Ctx.get (Some "x") ;; put_prop seen "x" x ;; ret VUndef) ;;
    set_literal None {[ "x" := VNum x' ]} ;;
    emit emitter "evt" [] ;;
    fun w => (Ret (get_property (fields (heap w) seen) "x"), w)).

(** The caller writes to [initial] and to the object below it while the
    scope of [run(initial, fn)] is active, and the scope sets [a]. *)
Definition test_run_isolated : M (value * value * obj) :=
  b <- new_object {[ "x" := VNum 1 ]} ;;
  initial <- new_object {[ "a" := VNum 1; "b" := VRef b ]} ;;
  r <- Ctx.run initial (
    put_prop initial "a" (VNum 99) ;;
    put_prop b "x" (VNum 99) ;;
    a <- Ctx.get (Some "a") ;;
    sb <- Ctx.get (Some "b") ;;
    x <- (fun w => match sb with
                   | VRef l => (Ret (get_property (fields (heap w) l) "x"), w)
                   | _ => (Ret VUndef, w)
                   end) ;;
    set_literal None {[ "a" := VNum 5 ]} ;;
    ret (a, x)) ;;
  fun w => (Ret (r.1, r.2, fields (heap w) initial), w).

(** The store of P3, [{a: 1, b: {x: 1}}], with the patch [{b: {y: 2}}]
    ready: objects 0 and 2 are the two nested objects. *)
Definition shallow_merge_world : world :=
  World [ {[ "x" := VNum 1 ]};
          {[ "a" := VNum 1; "b" := VRef 0 ]};
          {[ "y" := VNum 2 ]};
          {[ "b" := VRef 2 ]} ] (Some 1).

(** The scope of P5: store [{x: 1}] current, patch [{x: 2}] ready. *)
Definition live_binding_world : world :=
  World [ {[ "x" := VNum 1 ]}; {[ "x" := VNum 2 ]} ] (Some 0).

(** A world with the store [{a: 1}] current and the patches [{b: 3}] and
    [{a: 10}] ready. *)
Definition nested_world : world :=
  World [ {[ "a" := VNum 1; "b" := VNum 2 ]}; {[ "b" := VNum 3 ]}; {[ "a" := VNum 10 ]} ] (Some 0).

(** The same world, and a function bound live to its store: called inside a
    nested scope, it sets [a] of the store it was bound to. *)
Definition bump_parent : unit → M unit :=
  fun _ => set_literal None {[ "a" := VNum 2 ]}.

(** [initial] is [{a: 1, b: {x: 1}}]: object 1, with object 0 below it. *)
Definition caller_world : world :=
  World [ {[ "x" := VNum 1 ]}; {[ "a" := VNum 1; "b" := VRef 0 ]} ] None.

(** The store [{id: 1}] is current, and object 1 is [{log: console.log}]:
    an initial store, or a patch, that holds a function. *)
Definition logger_world : world :=
  World [ {[ "id" := VNum 1 ]}; {[ "log" := VFun "console.log" ]} ] (Some 0).

(** [set({log: console.log})], then a function bound without [live] is
    called in the same scope. *)
Definition call_bound_after_set : M unit :=
  Ctx.set None 1 ;;
  bound <- Ctx.bind (fun _ : unit => ret tt) None ;;
  bound tt.

(** A listener that records in [seen] the [x] it reads. *)
Definition record_x (seen : loc) : listener :=
  fun _ => x <- Ctx.get (Some "x") ;; put_prop seen "x" x ;; ret VUndef.

(** [bindEmitter] is called in a scope whose store is [{x: 1}]; the listener
    is registered after that scope has ended, outside any scope or in a scope
    whose store is [{x: 5}], and the event is emitted outside any scope. *)
Definition register_after_bindEmitter (opts : option Ctx.BindOptions)
    (later : option obj) : M value :=
  seen <- new_object ∅ ;;
  initial <- new_object {[ "x" := VNum 1 ]} ;;
  emitter <- Ctx.run initial (Ctx.bindEmitter new_EventEmitter opts) ;;
  emitter <- match later with
             | None => register on emitter "evt" (record_x seen)
             | Some o =>
                 other <- new_object o ;;
                 Ctx.run other (register on emitter "evt" (record_x seen))
             end ;;
  emit emitter "evt" [] ;;
  fun w => (Ret (get_property (fields (heap w) seen) "x"), w).

(** * The Express middleware *)

(** [try { body } catch { /* no-op */ }]. *)
Definition try_catch_noop (body : M unit) : M unit :=
  fun w => match body w with
           | (Ret a, w') => (Ret a, w')
           | (Throw _, w') => (Ret tt, w')
           end.

Module Middleware.

(** The options of [middleware.express].  A hook is given [{req, res, store}];
    [req] and [res] are handed over as they came, and the hook is modelled
    as a function of the store.  [init] is awaited: it returns the initial
    store or fails. *)
Record Options := {
  init : option (M loc);
  onStart : option (value -> M unit);
  onFinish : option (value -> M unit)
}.

(** [(await opts?.init?.({ req, res })) ?? {}]. *)
Definition initial_store (opts : option Options) : M loc :=
  match opts with
  | Some {| init := Some i |} => i
  | _ => new_object ∅
  end.

Definition onStart_of (opts : option Options) : option (value -> M unit) :=
  match opts with Some o => onStart o | None => None end.

Definition onFinish_of (opts : option Options) : option (value -> M unit) :=
  match opts with Some o => onFinish o | None => None end.

(** [hook?.({ req, res, store: use() })]: the argument is evaluated only when
    the hook is there. *)
Definition call_hook (hook : option (value -> M unit)) : M unit :=
  match hook with
  | Some f => s <- Ctx.use ;; f s
  | None => ret tt
  end.

(** The function handed to [bind]:
    [() => { try { opts?.onFinish?.({ req, res, store: use() }) } catch {} }]. *)
Definition finish_callback (opts : option Options) : listener :=
  fun _ => try_catch_noop (call_hook (onFinish_of opts)) ;; ret VUndef.

(** The request handler [(req, res, next) => ...], with [res] passed along as
    emitters are. *)
Definition express (opts : option Options) (res : EventEmitter) (next : M unit)
    : M EventEmitter :=
  initial <- initial_store opts ;;
  Ctx.run initial (
    call_hook (onStart_of opts) ;;
    finish <- Ctx.bind (finish_callback opts) None ;;
    res <- register on res "finish" finish ;;
    res <- register on res "close" finish ;;
    next ;;
    ret res).

End Middleware.

(** The handler the middleware registers in a scope whose store is [c]. *)
Definition finish_handler (opts : option Middleware.Options) (c : loc) : listener :=
  bound_to None c (Middleware.finish_callback opts).

(** The response once that handler is registered for "finish" and "close". *)
Definition with_finish (opts : option Middleware.Options) (c : loc)
    (res : EventEmitter) : EventEmitter :=
  with_listeners
    (listeners res ++ [Entry "finish" false (finish_handler opts c);
                       Entry "close" false (finish_handler opts c)]) res.

(** "express middleware: init, onStart and onFinish are invoked with
    context": the hooks record their calls in the object [log], which counts
    them in [n] and keeps, for each tag, its position and what it was given. *)
Definition log_call (log : loc) (tag : string) (v : value) : M unit :=
  fun w =>
    let o := fields (heap w) log in
    let n := match o !! "n" with Some (VNum n) => n | _ => 0%Z end in
    (Ret tt, with_heap (<[log := <["n" := VNum (n + 1)]>
                                    (<[tag := v]> (<[(tag +:+ "@") := VNum n]> o))]>
                          (heap w)) w).

Definition read_prop (s : value) (k : string) : M value :=
  fun w => match s with
           | VRef l => (Ret (get_property (fields (heap w) l) k), w)
           | _ => (Ret VUndef, w)
           end.

Definition test_middleware_opts (log : loc) : option Middleware.Options :=
  Some {| Middleware.init :=
            Some (log_call log "init" VUndef ;; new_object {[ "reqId" := VStr "abc" ]});
          Middleware.onStart :=
            Some (fun s => v <- read_prop s "reqId" ;; log_call log "start" v);
          Middleware.onFinish :=
            Some (fun s => v <- read_prop s "reqId" ;; log_call log "finish" v) |}.

Definition test_middleware (both : bool) : M (obj * value) :=
  log <- new_object ∅ ;;
  seen <- new_object ∅ ;;
  res <- Middleware.express (test_middleware_opts log) new_EventEmitter (
    inside <- Ctx.has ;;
    r <- Ctx.get (Some "reqId") ;;
    put_prop seen "has" (VBool inside) ;;
    put_prop seen "reqId" r ;;
    set_literal None {[ "reqId" := VStr "xyz" ]}) ;;
  res <- emit res "finish" [] ;;
  (if both then _ <- emit res "close" [] ;; ret tt else ret tt) ;;
  after <- Ctx.has ;;
  fun w => (Ret (fields (heap w) log, VBool after), w).

(** Options whose [init] fails. *)
Definition failing_init_opts : option Middleware.Options :=
  Some {| Middleware.init := Some (throw (Error "init failed"));
          Middleware.onStart := None;
          Middleware.onFinish := None |}.

(** * Proofs *)

(** Unfolds a call of the engine down to the store it reads. *)
Ltac ctx_unfold :=
  unfold Ctx.has, Ctx.get, Ctx.set, Ctx.use, Ctx.bind, Ctx.getStore,
    als_getStore, andThen.

(** ** The object graph *)

Lemma elem_of_children (o : obj) (c : loc) :
  c ∈ children o ↔ ∃ k, o !! k = Some (VRef c).
Proof.
  unfold children, refs_of. rewrite list_elem_of_omap. split.
  - intros [[k v] [Hin Hv]]. apply elem_of_map_to_list in Hin.
    simpl in Hv. destruct v; simplify_eq. eauto.
  - intros [k Hk]. exists (k, VRef c). split; [|done].
    by apply elem_of_map_to_list.
Qed.

Lemma closed_lookup h l o c :
  closed h → h !! l = Some o → c ∈ children o → c < length h.
Proof.
  intros Hc Hl Hin. unfold closed in Hc. rewrite Forall_lookup in Hc.
  destruct (Hc _ _ Hl) as [_ Hch]. rewrite Forall_forall in Hch. by apply Hch.
Qed.

Lemma plain_spec (o : obj) :
  plain o = true ↔ ∀ k v, o !! k = Some v → plain_value v = true.
Proof.
  unfold plain. rewrite forallb_forall. split.
  - intros H k v Hk. apply (H (k, v)). apply list_elem_of_In.
    by apply elem_of_map_to_list.
  - intros H [k v] Hin. apply list_elem_of_In, elem_of_map_to_list in Hin.
    by eapply H.
Qed.

Lemma cloneable_spec (o : obj) :
  cloneable o = true ↔ ∀ k v, o !! k = Some v → cloneable_value v = true.
Proof.
  unfold cloneable. rewrite forallb_forall. split.
  - intros H k v Hk. apply (H (k, v)). apply list_elem_of_In.
    by apply elem_of_map_to_list.
  - intros H [k v] Hin. apply list_elem_of_In, elem_of_map_to_list in Hin.
    by eapply H.
Qed.

Lemma holds_prototype_spec (o : obj) :
  holds_prototype o = true ↔ ∃ k, o !! k = Some VObjectPrototype.
Proof.
  unfold holds_prototype. rewrite existsb_exists. split.
  - intros ([k v] & Hin & Hv). apply list_elem_of_In, elem_of_map_to_list in Hin.
    apply bool_decide_eq_true in Hv. simpl in Hv. subst v. eauto.
  - intros [k Hk]. exists (k, VObjectPrototype). split.
    + apply list_elem_of_In. by apply elem_of_map_to_list.
    + by apply bool_decide_eq_true.
Qed.

Lemma plain_cloneable (o : obj) : plain o = true → cloneable o = true.
Proof.
  rewrite plain_spec, cloneable_spec. intros H k v Hk.
  specialize (H k v Hk). by destruct v.
Qed.

Lemma plain_empty : plain (∅ : obj) = true.
Proof. reflexivity. Qed.

Lemma plain_rename (m : memo) (o : obj) : plain o = true → plain (rename m <$> o) = true.
Proof.
  rewrite !plain_spec. intros H k v Hk. rewrite lookup_fmap in Hk.
  destruct (o !! k) as [v0|] eqn:Hv; [|done]. simpl in Hk. simplify_eq.
  specialize (H k v0 Hv). destruct v0; try done. simpl. by destruct (m !! l).
Qed.

Lemma closed_plain h l o : closed h → h !! l = Some o → plain o = true.
Proof.
  intros Hc Hl. unfold closed in Hc. rewrite Forall_lookup in Hc.
  by destruct (Hc _ _ Hl).
Qed.

Lemma plain_fields h l : closed h → plain (fields h l) = true.
Proof.
  intros Hc. unfold fields. destruct (h !! l) as [o|] eqn:E; simpl.
  - by eapply closed_plain.
  - apply plain_empty.
Qed.

Lemma rename_subseteq (m m' : memo) v :
  m ⊆ m' → (∀ c, v = VRef c → is_Some (m !! c)) → rename m' v = rename m v.
Proof.
  intros Hsub Hv. destruct v; try done. simpl.
  destruct (Hv l eq_refl) as [l' Hl]. rewrite Hl.
  by rewrite (lookup_weaken _ _ _ _ Hl Hsub).
Qed.

Lemma rename_obj_subseteq (m m' : memo) (o : obj) :
  m ⊆ m' → (∀ c, c ∈ children o → is_Some (m !! c)) →
  rename m' <$> o = rename m <$> o.
Proof.
  intros Hsub Hc. apply map_eq. intros k. rewrite !lookup_fmap.
  destruct (o !! k) as [v|] eqn:Hk; [|done]. simpl. f_equal.
  apply rename_subseteq; [done|]. intros c ->. apply Hc.
  apply elem_of_children. eauto.
Qed.

Lemma children_rename (m : memo) (o : obj) c' :
  c' ∈ children (rename m <$> o) →
  ∃ c, c ∈ children o ∧ rename m (VRef c) = VRef c'.
Proof.
  rewrite elem_of_children. intros [k Hk]. rewrite lookup_fmap in Hk.
  destruct (o !! k) as [v|] eqn:Hv; [|done]. simpl in Hk.
  destruct v; simpl in Hk; try done.
  exists l. split; [apply elem_of_children; eauto|]. simpl. congruence.
Qed.

(** ** The graph copy is a deep copy *)

Section clone.
Variable h0 : Heap.
Hypothesis h0_closed : closed h0.

Lemma clone_step_refl s : clone_step h0 s s.
Proof. split; try done. intros a a' H1 H2. congruence. Qed.

Lemma clone_step_trans s1 s2 s3 :
  clone_inv h0 s2 → clone_step h0 s1 s2 → clone_step h0 s2 s3 → clone_step h0 s1 s3.
Proof.
  intros I2 [M12 L12 K12 D12] [M23 L23 K23 D23]. split.
  - by etrans.
  - lia.
  - intros i Hi. rewrite K23 by lia. by apply K12.
  - intros a a' H3 H1.
    destruct (s2.1 !! a) as [b|] eqn:H2.
    + assert (b = a') as -> by (pose proof (lookup_weaken _ _ _ _ H2 M23); congruence).
      destruct (D12 _ _ H2 H1) as (o & Ho & Hcell & Hch).
      exists o. split; [done|]. split.
      * rewrite K23 by (apply (inv_range _ _ I2) in H2; lia).
        rewrite Hcell. f_equal. symmetry. by apply rename_obj_subseteq.
      * intros c Hc. destruct (Hch c Hc) as [c' Hc'].
        exists c'. by eapply lookup_weaken.
    + by apply D23.
Qed.

Lemma memo_size_bound s l :
  clone_inv h0 s → s.1 !! l = None → l < length h0 → size s.1 < length h0.
Proof.
  intros I Hl Hlt.
  assert (dom s.1 ∪ {[l]} ⊆ (set_seq 0 (length h0) : gset nat)) as Hsub.
  { intros x. rewrite elem_of_union, elem_of_dom, elem_of_singleton, elem_of_set_seq.
    intros [[x' Hx]| ->]; [apply (inv_range _ _ I) in Hx|]; lia. }
  apply subseteq_size in Hsub.
  rewrite size_union, size_singleton, size_dom, size_set_seq in Hsub.
  - lia.
  - intros x. rewrite elem_of_dom, elem_of_singleton. intros [x' Hx] ->. congruence.
Qed.

Lemma visit_all_spec (visit : loc → memo * Heap → option (memo * Heap)) k ls :
  (∀ l s, clone_inv h0 s → k ≤ size s.1 → l < length h0 →
     ∃ s', visit l s = Some s' ∧ clone_inv h0 s' ∧ clone_step h0 s s' ∧ is_Some (s'.1 !! l)) →
  ∀ s, clone_inv h0 s → k ≤ size s.1 → Forall (fun l => l < length h0) ls →
    ∃ s', visit_all visit ls s = Some s' ∧ clone_inv h0 s' ∧ clone_step h0 s s'
          ∧ ∀ l, l ∈ ls → is_Some (s'.1 !! l).
Proof.
  intros Hvisit. induction ls as [|l ls IH]; intros s I Hk Hls.
  - exists s. split; [done|]. split; [done|]. split; [apply clone_step_refl|].
    intros l Hl. by apply elem_of_nil in Hl.
  - apply Forall_cons in Hls as [Hl Hls].
    destruct (Hvisit l s I Hk Hl) as (s1 & E1 & I1 & S1 & [l' Hl']).
    assert (k ≤ size s1.1) as Hk1.
    { pose proof (map_subseteq_size _ _ (step_memo _ _ _ S1)). lia. }
    destruct (IH s1 I1 Hk1 Hls) as (s2 & E2 & I2 & S2 & Hall).
    exists s2. simpl. rewrite E1. split; [done|]. split; [done|].
    split; [by apply (clone_step_trans s s1 s2)|].
    intros x Hx. apply elem_of_cons in Hx as [->|Hx]; [|by apply Hall].
    exists l'. eapply lookup_weaken; [done|]. apply S2.
Qed.

Lemma copy_graph_spec n : ∀ l s,
  clone_inv h0 s → l < length h0 → length h0 < n + size s.1 →
  ∃ s', copy_graph n l s = Some s' ∧ clone_inv h0 s' ∧ clone_step h0 s s'
        ∧ is_Some (s'.1 !! l).
Proof.
  induction n as [|n IH]; intros l [m h] I Hl Hfuel; simpl in *.
  - destruct (m !! l) as [l'|] eqn:Hm.
    + exists (m, h). split; [done|]. split; [done|]. split; [apply clone_step_refl|].
      simpl. eauto.
    + pose proof (memo_size_bound (m, h) l I Hm Hl). simpl in *. lia.
  - destruct (m !! l) as [l'|] eqn:Hm.
    { exists (m, h). split; [done|]. split; [done|]. split; [apply clone_step_refl|].
      simpl. eauto. }
    pose proof (inv_old _ _ I l Hl) as Hold. simpl in Hold.
    destruct (h0 !! l) as [o|] eqn:Ho;
      [|apply lookup_ge_None in Ho; lia].
    rewrite Hold.
    assert (cloneable o = true) as Hcl.
    { apply plain_cloneable. by eapply closed_plain. }
    rewrite Hcl.
    set (s1 := (<[l := length h]> m, h ++ [∅])).
    assert (clone_inv h0 s1) as I1.
    { destruct I as [IL IO IR II IN]. simpl in *. split; simpl.
      - rewrite length_app. lia.
      - intros i Hi. rewrite lookup_app_l by lia. by apply IO.
      - intros a a' Ha. rewrite length_app. simpl.
        apply lookup_insert_Some in Ha as [[<- <-]|[Hne Ha]]; [lia|].
        apply IR in Ha. lia.
      - intros a b a' Ha Hb.
        apply lookup_insert_Some in Ha as [[<- <-]|[Hne Ha]];
        apply lookup_insert_Some in Hb as [[<- Hb]|[Hne' Hb]]; try done.
        + apply IR in Hb. lia.
        + apply IR in Ha. lia.
        + by eapply II.
      - intros i Hi1 Hi2. rewrite length_app in Hi2. simpl in Hi2.
        destruct (decide (i = length h)) as [->|Hne].
        + exists l. apply lookup_insert_eq.
        + destruct (IN i) as [a Ha]; [lia|lia|].
          exists a. rewrite lookup_insert_ne; [done|]. congruence. }
    assert (size s1.1 = S (size m)) as Hsize.
    { simpl. by apply map_size_insert_None. }
    assert (Forall (fun c => c < length h0) (children o)) as Hch.
    { apply Forall_forall. intros c Hc. by eapply closed_lookup. }
    destruct (visit_all_spec (copy_graph n) (S (size m)) (children o)) with (s := s1)
      as ([m2 h2] & E2 & I2 & S2 & Hall); [|done|lia|done|].
    { intros c s Is Hk Hc. apply IH; [done|done|lia]. }
    rewrite E2.
    destruct I2 as [IL2 IO2 IR2 II2 IN2], S2 as [M2 L2 K2 D2]. simpl in *.
    rewrite length_app in L2, K2. simpl in L2, K2.
    assert (m2 !! l = Some (length h)) as Hml.
    { eapply lookup_weaken; [|exact M2]. apply lookup_insert_eq. }
    pose proof (inv_length _ _ I) as IL. simpl in IL.
    exists (m2, <[length h := rename m2 <$> o]> h2).
    split; [done|]. split; [|split]; [| |simpl; eauto].
    + split; simpl.
      * by rewrite length_insert.
      * intros i Hi. rewrite list_lookup_insert_ne by lia. by apply IO2.
      * intros a a' Ha. rewrite length_insert. by apply IR2.
      * done.
      * intros i Hi1 Hi2. rewrite length_insert in Hi2. by apply IN2.
    + split; simpl.
      * etrans; [|exact M2]. by apply insert_subseteq.
      * rewrite length_insert. lia.
      * intros i Hi. rewrite list_lookup_insert_ne by lia.
        rewrite K2 by lia. by apply lookup_app_l.
      * intros a a' Ha Hnone. destruct (decide (a = l)) as [->|Hne].
        -- assert (a' = length h) as -> by congruence.
           exists o. split; [done|]. split; [|done].
           apply list_lookup_insert_eq. lia.
        -- destruct (D2 a a' Ha) as (oa & Hoa & Hcell & Hca).
           { by rewrite lookup_insert_ne. }
           exists oa. split; [done|]. split; [|done].
           rewrite list_lookup_insert_ne; [done|].
           intros <-. apply Hne. by eapply II2.
Qed.

End clone.

Lemma copy_graph_deep_copy h l :
  closed h → l < length h →
  ∃ m h' l', copy_graph (S (length h)) l (∅, h) = Some (m, h')
             ∧ m !! l = Some l' ∧ deep_copy h h' m.
Proof.
  intros Hc Hl.
  assert (clone_inv h (∅, h)) as I0.
  { split; simpl; try done. intros i. lia. }
  destruct (copy_graph_spec h Hc (S (length h)) l (∅, h) I0 Hl)
    as ([m h'] & E & [IL IO IR II IN] & [M L K D] & [l' Hl']); [lia|].
  simpl in *. exists m, h', l'. split; [done|]. split; [done|].
  split; try done. intros a a' Ha. apply D; [done|]. apply lookup_empty.
Qed.

(** A copy of plain data holds no [Object.prototype] to stand in for. *)
Lemma copy_prototype_plain h h' m :
  closed h → deep_copy h h' m → copy_prototype (length h) h' = h'.
Proof.
  intros Hc D. unfold copy_prototype.
  destruct (existsb holds_prototype (drop (length h) h')) eqn:E; [|done].
  exfalso. apply existsb_exists in E as (o & Hin & Ho).
  apply list_elem_of_In, list_elem_of_lookup in Hin as [j Hj].
  rewrite lookup_drop in Hj.
  destruct (copy_onto _ _ _ D (length h + j)) as [a Ha];
    [lia|by eapply lookup_lt_Some|].
  destruct (copy_cells _ _ _ D _ _ Ha) as (oa & Hoa & Hcell & _).
  assert (o = rename m <$> oa) as -> by congruence.
  pose proof (plain_rename m oa (closed_plain _ _ _ Hc Hoa)) as Hp.
  apply holds_prototype_spec in Ho as [k Hk].
  rewrite plain_spec in Hp. by specialize (Hp _ _ Hk).
Qed.

Lemma copy_prototype_frame n h :
  n ≤ length h →
  length h ≤ length (copy_prototype n h)
  ∧ ∀ i, i < n → copy_prototype n h !! i = h !! i.
Proof.
  intros Hn. unfold copy_prototype.
  destruct (existsb holds_prototype (drop n h)); [|done]. split.
  - rewrite !length_app, length_take, length_fmap, length_drop. simpl. lia.
  - intros i Hi. rewrite lookup_app_l by (rewrite length_take; lia).
    by apply lookup_take_lt.
Qed.

Lemma structuredClone_spec w l :
  closed (heap w) → l < length (heap w) →
  ∃ m h' l', structuredClone l w = (Ret l', with_heap h' w)
             ∧ m !! l = Some l' ∧ deep_copy (heap w) h' m.
Proof.
  intros Hc Hl. destruct (copy_graph_deep_copy _ _ Hc Hl) as (m & h' & l' & E & Hm & D).
  exists m, h', l'. unfold structuredClone. rewrite E, Hm.
  by rewrite (copy_prototype_plain _ _ _ Hc D).
Qed.

(** Everything below a copy is a copy: the clone shares no object with the
    heap it was taken from. *)
Lemma deep_copy_reach h h' m a a' x :
  deep_copy h h' m → m !! a = Some a' → reach h' a' x →
  ∃ b, m !! b = Some x.
Proof.
  intros D Ha Hr. revert a Ha. induction Hr as [y|y o c x Hy Hc Hr IH]; intros a Ha.
  - eauto.
  - destruct (copy_cells _ _ _ D _ _ Ha) as (oa & Hoa & Hcell & Hch).
    assert (o = rename m <$> oa) as -> by congruence.
    apply children_rename in Hc as (c0 & Hc0 & Hren).
    destruct (Hch _ Hc0) as [c' Hc']. simpl in Hren. rewrite Hc' in Hren.
    simplify_eq. by eapply IH.
Qed.

Lemma deep_copy_reach_fresh h h' m a a' x :
  deep_copy h h' m → m !! a = Some a' → reach h' a' x → length h ≤ x.
Proof.
  intros D Ha Hr. destruct (deep_copy_reach _ _ _ _ _ _ D Ha Hr) as [b Hb].
  apply (copy_fresh _ _ _ D) in Hb. lia.
Qed.

(** A copy of a closed heap is closed. *)
Lemma deep_copy_closed h h' m : closed h → deep_copy h h' m → closed h'.
Proof.
  intros Hc D. unfold closed. apply Forall_lookup. intros i o Hi.
  pose proof (copy_length _ _ _ D) as HL.
  destruct (decide (i < length h)) as [Hlt|Hge].
  - rewrite (copy_keeps _ _ _ D) in Hi by done. split.
    + by eapply closed_plain.
    + apply Forall_forall. intros c Hin.
      pose proof (closed_lookup _ _ _ _ Hc Hi Hin). lia.
  - destruct (copy_onto _ _ _ D i) as [a Ha]; [lia|by eapply lookup_lt_Some|].
    destruct (copy_cells _ _ _ D _ _ Ha) as (oa & Hoa & Hcell & Hch).
    assert (o = rename m <$> oa) as -> by congruence. split.
    + apply plain_rename. by eapply closed_plain.
    + apply Forall_forall. intros c Hin.
      apply children_rename in Hin as (c0 & Hc0 & Hren).
      destruct (Hch _ Hc0) as [c' Hc']. simpl in Hren. rewrite Hc' in Hren.
      simplify_eq. apply (copy_fresh _ _ _ D) in Hc'. lia.
Qed.

(** ** The graph copy only appends *)

Lemma visit_all_frame (visit : loc → memo * Heap → option (memo * Heap)) ls :
  (∀ l s s', visit l s = Some s' → appends s s') →
  ∀ s s', visit_all visit ls s = Some s' → appends s s'.
Proof.
  intros Hv. induction ls as [|l ls IH]; intros s s' E; simpl in E.
  - simplify_eq. split; [done|]. split; [done|]. intros a a' Ha. by left.
  - destruct (visit l s) as [s1|] eqn:E1; [|done].
    destruct (Hv _ _ _ E1) as (L1 & K1 & R1). destruct (IH _ _ E) as (L2 & K2 & R2).
    split; [lia|]. split.
    + intros i Hi. rewrite K2 by lia. by apply K1.
    + intros a a' Ha. destruct (R2 _ _ Ha) as [Ha1|?]; [|right; lia].
      destruct (R1 _ _ Ha1) as [?|?]; [by left|right; lia].
Qed.

Lemma copy_graph_frame n : ∀ l s s', copy_graph n l s = Some s' → appends s s'.
Proof.
  induction n as [|n IH]; intros l [m h] s' E; simpl in E.
  - destruct (m !! l); [|done]. simplify_eq.
    split; [done|]. split; [done|]. intros a a' Ha. by left.
  - destruct (m !! l) eqn:Hm.
    { simplify_eq. split; [done|]. split; [done|]. intros a a' Ha. by left. }
    destruct (h !! l) as [o|]; [|done].
    destruct (cloneable o); [|done].
    destruct (visit_all _ _ _) as [[m2 h2]|] eqn:E2; [|done].
    apply (visit_all_frame _ _ (IH)) in E2 as (L2 & K2 & R2). simpl in *.
    rewrite length_app in L2, K2, R2. simpl in *. simplify_eq.
    split; simpl; [rewrite length_insert; lia|]. split.
    + intros i Hi. rewrite list_lookup_insert_ne by lia.
      rewrite K2 by lia. by apply lookup_app_l.
    + intros a a' Ha. rewrite length_insert.
      destruct (R2 _ _ Ha) as [Ha1|?]; [|right; lia].
      apply lookup_insert_Some in Ha1 as [[<- <-]|[Hne Ha1]]; [right; lia|by left].
Qed.

(** [structuredClone] either fails and changes nothing, or returns a new
    object and leaves every object in place as it was. *)
Lemma structuredClone_cases l w :
  structuredClone l w = (Throw DataCloneError, w)
  ∨ ∃ c h', structuredClone l w = (Ret c, with_heap h' w)
            ∧ length (heap w) ≤ c < length h'
            ∧ ∀ i, i < length (heap w) → h' !! i = heap w !! i.
Proof.
  unfold structuredClone.
  destruct (copy_graph _ _ _) as [[m h]|] eqn:E; [|by left].
  apply copy_graph_frame in E as (L & K & R). simpl in *.
  destruct (m !! l) as [c|] eqn:Hm; [|by left].
  destruct (copy_prototype_frame (length (heap w)) h L) as [L' K'].
  right. exists c, (copy_prototype (length (heap w)) h). split; [done|]. split.
  - destruct (R _ _ Hm) as [Hm0|?]; [|lia]. by rewrite lookup_empty in Hm0.
  - intros i Hi. rewrite K' by done. by apply K.
Qed.

(** ** Heap primitives and [set] *)

Lemma fields_lookup h l o : h !! l = Some o → fields h l = o.
Proof. unfold fields. by intros ->. Qed.

Lemma lookup_fields h l : l < length h → h !! l = Some (fields h l).
Proof.
  intros Hl. unfold fields. destruct (h !! l) eqn:E; [done|].
  apply lookup_ge_None in E. lia.
Qed.

Lemma fields_insert_eq h l o : l < length h → fields (<[l := o]> h) l = o.
Proof. intros Hl. apply fields_lookup. by apply list_lookup_insert_eq. Qed.

Lemma fields_insert_ne h l l' o : l ≠ l' → fields (<[l := o]> h) l' = fields h l'.
Proof. intros Hne. unfold fields. by rewrite list_lookup_insert_ne. Qed.

Lemma fields_app_l h h' l : l < length h → fields (h ++ h') l = fields h l.
Proof. intros Hl. unfold fields. by rewrite lookup_app_l. Qed.

Lemma fields_snoc h o : fields (h ++ [o]) (length h) = o.
Proof. apply fields_lookup. by apply list_lookup_middle. Qed.

Lemma delete_all_lookup ks : ∀ (o : obj) k,
  delete_all ks o !! k = if decide (k ∈ ks) then None else o !! k.
Proof.
  induction ks as [|k0 ks IH]; intros o k.
  - case_decide as H; [by apply elem_of_nil in H|done].
  - change (delete_all (k0 :: ks) o) with (delete_all ks (delete k0 o)).
    rewrite IH.
    destruct (decide (k ∈ ks)) as [Hin|Hnin];
      destruct (decide (k ∈ k0 :: ks)) as [Hin'|Hnin']; try done.
    + exfalso. apply Hnin'. apply elem_of_cons; by right.
    + apply elem_of_cons in Hin' as [->|?]; [|done]. apply lookup_delete_eq.
    + apply lookup_delete_ne. intros ->. apply Hnin'. apply elem_of_cons; by left.
Qed.

Lemma delete_all_keys (o : obj) : delete_all (map fst (map_to_list o)) o = ∅.
Proof.
  apply map_eq. intros k. rewrite delete_all_lookup, lookup_empty.
  destruct (decide _) as [|Hnin]; [done|].
  destruct (o !! k) as [v|] eqn:Hk; [|done].
  exfalso. apply Hnin. apply list_elem_of_fmap. exists (k, v).
  split; [done|]. by apply elem_of_map_to_list.
Qed.

Lemma for_each_delete l ks : ∀ w, l < length (heap w) →
  for_each ks (delete_prop l) w
  = (Ret tt, with_heap (<[l := delete_all ks (fields (heap w) l)]> (heap w)) w).
Proof.
  induction ks as [|k ks IH]; intros [h a] Hl; simpl in *.
  - unfold ret, with_heap. simpl. rewrite list_insert_id; [done|].
    by apply lookup_fields.
  - unfold andThen, delete_prop. simpl. rewrite IH by (simpl; by rewrite length_insert).
    unfold with_heap. simpl. rewrite fields_insert_eq by done.
    by rewrite list_insert_insert_eq.
Qed.

Lemma assign_empty (o : obj) : assign ∅ o = o.
Proof. unfold assign. apply (right_id_L ∅ (∪)). Qed.

Lemma set_no_scope options patch w :
  als w = None → Ctx.set options patch w = (Ret tt, w).
Proof. intros H. ctx_unfold. by rewrite H. Qed.

Lemma set_in_scope options patch w l :
  als w = Some l → l < length (heap w) →
  Ctx.set options patch w
  = (Ret tt,
     with_heap (<[l := Ctx.merge options (fields (heap w) l) (fields (heap w) patch)]>
                  (heap w ++ [Ctx.merge options (fields (heap w) l) (fields (heap w) patch)])) w).
Proof.
  intros Ha Hl. destruct w as [h a]. simpl in *. subst a.
  ctx_unfold. simpl.
  unfold Ctx.call_merge, new_object, object_keys. simpl.
  set (mg := Ctx.merge options (fields h l) (fields h patch)).
  rewrite for_each_delete by (simpl; rewrite length_app; lia).
  unfold object_assign, with_heap. simpl.
  rewrite (fields_app_l h [mg] l) by done.
  rewrite delete_all_keys.
  rewrite fields_insert_eq by (rewrite length_app; lia).
  rewrite fields_insert_ne by lia.
  rewrite fields_snoc, assign_empty.
  by rewrite list_insert_insert_eq.
Qed.

Lemma for_each_delete_frame l ks : ∀ w,
  ∃ h', for_each ks (delete_prop l) w = (Ret tt, with_heap h' w)
        ∧ length h' = length (heap w)
        ∧ ∀ i, i ≠ l → h' !! i = heap w !! i.
Proof.
  induction ks as [|k ks IH]; intros [h a].
  - exists h. done.
  - destruct (IH (World (<[l:=delete k (fields h l)]> h) a))
      as (h' & E & L & K).
    exists h'. cbn [for_each]. unfold andThen.
    change (delete_prop l k (World h a))
      with (Ret tt, World (<[l:=delete k (fields h l)]> h) a).
    cbv iota. rewrite E. simpl in *. split; [done|]. split.
    + by rewrite L, length_insert.
    + intros i Hi. rewrite K by done. by apply list_lookup_insert_ne.
Qed.

Lemma set_frame options patch w :
  (Ctx.set options patch w).1 = Ret tt
  ∧ als (Ctx.set options patch w).2 = als w
  ∧ length (heap w) ≤ length (heap (Ctx.set options patch w).2)
  ∧ ∀ i, i < length (heap w) → als w ≠ Some i →
      heap (Ctx.set options patch w).2 !! i = heap w !! i.
Proof.
  destruct w as [h a]. ctx_unfold. simpl.
  destruct a as [l|]; [|done].
  unfold Ctx.call_merge, new_object, object_keys. simpl.
  match goal with |- context [for_each ?ks _ ?w] =>
    destruct (for_each_delete_frame l ks w) as (h' & E & L & K) end.
  rewrite E. simpl in *. rewrite length_insert, L, length_app. simpl.
  split; [done|]. split; [done|]. split; [lia|].
  intros i Hi Hne. rewrite list_lookup_insert_ne by congruence.
  rewrite K by congruence. by apply lookup_app_l.
Qed.

(** ** Functions that write only to the store they run in *)

Lemma confined_ret {R} (r : R) : confined (ret r).
Proof. by split. Qed.

Lemma confined_throw {R} e : confined (throw (A := R) e).
Proof. by split. Qed.

Lemma confined_andThen {A B} (m : M A) (k : A → M B) :
  confined m → (∀ a, confined (k a)) → confined (andThen m k).
Proof.
  intros [Ma Mg Mk] Hk. split; intros w; unfold andThen;
    specialize (Ma w); specialize (Mg w); specialize (Mk w);
    destruct (m w) as [[a|e] w1]; simpl in *; try done.
  - rewrite (conf_als _ (Hk a)). done.
  - pose proof (conf_grow _ (Hk a) w1). lia.
  - intros i Hi Hne. rewrite (conf_keep _ (Hk a)); [by apply Mk|lia|congruence].
Qed.

Lemma confined_new_object o : confined (new_object o).
Proof.
  split; intros w; simpl; try done.
  - rewrite length_app. lia.
  - intros i Hi _. by apply lookup_app_l.
Qed.

Lemma confined_getStore : confined Ctx.getStore.
Proof. by split. Qed.

Lemma confined_has : confined Ctx.has.
Proof. by split. Qed.

Lemma confined_get key : confined (Ctx.get key).
Proof.
  split; intros [h a]; ctx_unfold; simpl;
    destruct a as [l|]; try done; destruct key; done.
Qed.

Lemma confined_use : confined Ctx.use.
Proof.
  split; intros [h a]; ctx_unfold; simpl;
    destruct a as [l|]; done.
Qed.

Lemma confined_set options patch : confined (Ctx.set options patch).
Proof.
  split; intros w; destruct (set_frame options patch w) as (_ & Ha & Hg & Hk); done.
Qed.

(** A confined function run in a store allocated after [n] writes to no
    object below [n]. *)
Lemma als_run_fresh {R} (fn : M R) c w :
  confined fn → length (heap w) ≤ length (heap (als_run c fn w).2)
  ∧ ∀ i, i < length (heap w) → i ≠ c → heap (als_run c fn w).2 !! i = heap w !! i.
Proof.
  intros [Fa Fg Fk]. unfold als_run.
  specialize (Fg (with_als (Some c) w)). specialize (Fk (with_als (Some c) w)).
  destruct (fn (with_als (Some c) w)) as [r w']. simpl in *.
  split; [done|]. intros i Hi Hne. apply Fk; [done|congruence].
Qed.

Lemma als_run_als {R} (fn : M R) c w : als (als_run c fn w).2 = als w.
Proof. unfold als_run. by destruct (fn _). Qed.

Lemma confined_clone_run {R} (l : loc) (fn : M R) :
  confined fn → confined (c <- structuredClone l ;; als_run c fn).
Proof.
  intros Hfn. split; intros w; unfold andThen;
    destruct (structuredClone_cases l w) as [E|(c & h' & E & Hc & K)];
    rewrite E; simpl; try done.
  - by rewrite als_run_als.
  - destruct (als_run_fresh fn c (with_heap h' w) Hfn) as [G _]. simpl in *. lia.
  - intros i Hi Hne.
    destruct (als_run_fresh fn c (with_heap h' w) Hfn) as [_ F]. simpl in *.
    rewrite F by lia. by apply K.
Qed.

Lemma confined_run {R} initial (fn : M R) : confined fn → confined (Ctx.run initial fn).
Proof. apply confined_clone_run. Qed.

Lemma confined_call_merge options prev patch : confined (Ctx.call_merge options prev patch).
Proof.
  split; intros w; unfold Ctx.call_merge; apply (confined_new_object _).
Qed.

Lemma confined_withScope {R} options patch (fn : M R) :
  confined fn → confined (Ctx.withScope options patch fn).
Proof.
  intros Hfn. unfold Ctx.withScope.
  apply confined_andThen; [apply confined_getStore|]. intros current.
  apply confined_andThen.
  { destruct current; [apply confined_ret|apply confined_new_object]. }
  intros prev. apply confined_andThen; [apply confined_call_merge|].
  intros next. by apply confined_clone_run.
Qed.

(** A function bound without [live] runs on a copy taken when it is called:
    the call is confined when the function is. *)
Lemma confined_bind_snapshot {A B} (fn : A → M B) opts w :
  Ctx.is_live opts = false → (∀ a, confined (fn a)) →
  ∃ bound, Ctx.bind fn opts w = (Ret bound, w) ∧ ∀ a, confined (bound a).
Proof.
  intros Hlive Hfn. ctx_unfold. simpl.
  destruct (als w) as [c|]; [|by eexists].
  eexists. split; [done|]. intros a. rewrite Hlive.
  by apply confined_clone_run.
Qed.

Create HintDb confined.
#[global] Hint Resolve confined_ret confined_throw confined_new_object
  confined_getStore confined_has confined_get confined_use confined_set
  confined_call_merge confined_run confined_withScope : confined.
#[global] Hint Extern 2 (confined (andThen _ _)) =>
  apply confined_andThen; [|intros ?] : confined.

Lemma confined_set_literal options o : confined (set_literal options o).
Proof. unfold set_literal. eauto with confined. Qed.

Lemma confined_get_fields : confined get_fields.
Proof.
  unfold get_fields. apply confined_andThen; [apply confined_get|].
  intros []; by split.
Qed.

Lemma confined_for_each {A} (ks : list A) (body : A → M unit) :
  (∀ k, confined (body k)) → confined (for_each ks body).
Proof.
  intros Hb. induction ks as [|k ks IH]; simpl; [apply confined_ret|].
  apply confined_andThen; [apply Hb|]. by intros _.
Qed.

#[global] Hint Resolve confined_set_literal confined_get_fields : confined.

(** The body of the nested scope of scenario B writes only to its store. *)
Example scenario_B_body_confined :
  confined (s1 <- get_fields ;;
            set_literal None {[ "a" := VNum 10 ]} ;;
            s2 <- get_fields ;;
            a <- Ctx.get (Some "a") ;;
            ret (s1, s2, a)).
Proof. eauto 10 with confined. Qed.

(** ** The test suite *)

(** [structuredClone({p: Object.prototype, q: Object.prototype})]: the two
    properties of the copy hold one and the same new empty object. *)
Example clone_of_prototype :
  structuredClone 0 (World [ {[ "p" := VObjectPrototype; "q" := VObjectPrototype ]} ] None)
  = (Ret 1, World [ {[ "p" := VObjectPrototype; "q" := VObjectPrototype ]};
                    {[ "p" := VRef 2; "q" := VRef 2 ]}; ∅ ] None).
Proof. vm_compute. reflexivity. Qed.

Example test_has_ok : (test_has empty_world).1 = Ret (false, true, false).
Proof. reflexivity. Qed.

Example test_shallow_merge_ok :
  (test_shallow_merge empty_world).1
  = Ret (VNum 1, {[ "a" := VNum 1; "b" := VRef 4 ]}, {[ "y" := VNum 2 ]}).
Proof. vm_compute. reflexivity. Qed.

Example test_with_ok :
  (test_with empty_world).1
  = Ret ({[ "a" := VNum 1; "b" := VNum 2 ]},
         {[ "a" := VNum 1; "b" := VNum 3 ]},
         {[ "a" := VNum 10; "b" := VNum 3 ]},
         VNum 10,
         {[ "a" := VNum 1; "b" := VNum 2 ]}).
Proof. vm_compute. reflexivity. Qed.

Example test_use_throws : (Ctx.use empty_world).1 = Throw Ctx.NoActiveContextError.
Proof. reflexivity. Qed.

Example test_bind_default : (test_bind snapshot_opts 2 empty_world).1 = Ret (VNum 2, VNum 2).
Proof. vm_compute. reflexivity. Qed.

Example test_bind_live : (test_bind live_opts 3 empty_world).1 = Ret (VNum 3, VNum 3).
Proof. vm_compute. reflexivity. Qed.

Example test_bindEmitter_default : (test_bindEmitter snapshot_opts 1 2 empty_world).1 = Ret (VNum 2).
Proof. vm_compute. reflexivity. Qed.

Example test_run_isolated_ok :
  (test_run_isolated empty_world).1
  = Ret (VNum 1, VNum 1, {[ "a" := VNum 99; "b" := VRef 0 ]}).
Proof. vm_compute. reflexivity. Qed.

Example test_bindEmitter_live : (test_bindEmitter live_opts 5 7 empty_world).1 = Ret (VNum 7).
Proof. vm_compute. reflexivity. Qed.

(** ** Entering and leaving a scope *)

Lemma als_run_leave {R} (fn : M R) c w :
  als_run c fn w = leave (als w) (fn (with_als (Some c) w)).
Proof. unfold als_run, leave. by destruct (fn _). Qed.

Lemma defaultMerge_lookup (prev patch : obj) k :
  Ctx.defaultMerge prev patch !! k
  = match patch !! k with Some v => Some v | None => prev !! k end.
Proof.
  unfold Ctx.defaultMerge, assign. rewrite lookup_union.
  rewrite (right_id_L ∅ (∪)).
  destruct (patch !! k), (prev !! k); done.
Qed.

Lemma merge_sound_default : merge_sound None.
Proof.
  intros prev patch k v. simpl. rewrite defaultMerge_lookup.
  intros Hk _. destruct (patch !! k) eqn:E; simplify_eq; eauto.
Qed.

(** A sound merge adds no reference, and makes plain data of plain data. *)
Lemma merge_sound_children options prev patch c :
  merge_sound options → c ∈ children (Ctx.merge options prev patch) →
  c ∈ children prev ∨ c ∈ children patch.
Proof.
  intros Hm. rewrite !elem_of_children. intros [k Hk].
  by destruct (Hm _ _ _ _ Hk eq_refl) as [?|?]; [left|right].
Qed.

Lemma merge_sound_plain options prev patch :
  merge_sound options → plain prev = true → plain patch = true →
  plain (Ctx.merge options prev patch) = true.
Proof.
  intros Hm. rewrite !plain_spec. intros Hprev Hpatch k v Hk.
  destruct (primitive v) eqn:Hp; [by destruct v|].
  destruct (Hm _ _ _ _ Hk Hp) as [[k' Hk']|[k' Hk']]; eauto.
Qed.

Lemma closed_snoc h (o : obj) :
  closed h → plain o = true → (∀ c, c ∈ children o → c < length h) →
  closed (h ++ [o]).
Proof.
  intros Hc Hp Ho. unfold closed in *. rewrite length_app. simpl.
  apply Forall_app. split.
  - eapply Forall_impl; [exact Hc|]. intros o' [Hp' Ho']. simpl in Ho'.
    split; [done|]. eapply Forall_impl; [exact Ho'|]. simpl. intros. lia.
  - apply Forall_singleton. split; [done|]. apply Forall_forall. intros c Hin.
    apply Ho in Hin. lia.
Qed.

Lemma children_empty c : c ∉ children (∅ : obj).
Proof. rewrite elem_of_children. intros [k Hk]. by rewrite lookup_empty in Hk. Qed.

Lemma children_fields h l c :
  closed h → c ∈ children (fields h l) → c < length h.
Proof.
  intros Hc Hin. unfold fields in Hin. destruct (h !! l) as [o|] eqn:E; simpl in Hin.
  - by eapply closed_lookup.
  - by apply children_empty in Hin.
Qed.

Lemma closed_insert h l (o : obj) :
  closed h → plain o = true → (∀ c, c ∈ children o → c < length h) →
  closed (<[l := o]> h).
Proof.
  intros Hc Hp Ho. unfold closed in *. rewrite length_insert.
  apply Forall_insert; [done|]. split; [done|].
  apply Forall_forall. intros c Hin. by apply Ho.
Qed.

(** Well-formedness is kept by an allocation and by [set]. *)
Lemma new_object_wf o w :
  wf w → plain o = true → (∀ c, c ∈ children o → c < length (heap w)) →
  wf (new_object o w).2.
Proof.
  intros [Hc Ha] Hp Ho. split; simpl.
  - by apply closed_snoc.
  - intros l Hl. apply Ha in Hl. rewrite length_app. lia.
Qed.

Lemma set_wf options patch w :
  wf w → merge_sound options → wf (Ctx.set options patch w).2.
Proof.
  intros Hwf Hm. destruct w as [h [l|]]; [|by rewrite set_no_scope].
  destruct Hwf as [Hc Ha]. simpl in *. specialize (Ha l eq_refl).
  rewrite (set_in_scope options patch (World h (Some l)) l eq_refl Ha). simpl.
  assert (∀ c, c ∈ children (Ctx.merge options (fields h l) (fields h patch)) →
               c < length h) as Hmg.
  { intros c Hin. apply (merge_sound_children _ _ _ _ Hm) in Hin as [Hin|Hin];
      by eapply children_fields. }
  assert (plain (Ctx.merge options (fields h l) (fields h patch)) = true) as Hpl.
  { apply merge_sound_plain; [done|by apply plain_fields..]. }
  split; simpl.
  - apply closed_insert; [by apply closed_snoc|done|].
    intros c Hin. apply Hmg in Hin. rewrite length_app. lia.
  - intros l' [= <-]. rewrite length_insert, length_app. lia.
Qed.

Lemma wf_copy h h' m a c :
  closed h → deep_copy h h' m → m !! a = Some c → wf (World h' (Some c)).
Proof.
  intros Hc D Hm. split; simpl.
  - by eapply deep_copy_closed.
  - intros l [= <-]. apply (copy_fresh _ _ _ D) in Hm. lia.
Qed.

Lemma run_enter w initial :
  closed (heap w) → initial < length (heap w) →
  ∃ m h' c, m !! initial = Some c ∧ deep_copy (heap w) h' m
    ∧ wf (World h' (Some c))
    ∧ ∀ R (fn : M R), Ctx.run initial fn w = leave (als w) (fn (World h' (Some c))).
Proof.
  intros Hc Hl. destruct (structuredClone_spec w initial Hc Hl) as (m & h' & c & E & Hm & D).
  exists m, h', c. split; [done|]. split; [done|].
  split; [by eapply wf_copy|]. intros R fn.
  unfold Ctx.run, andThen. rewrite E. by rewrite als_run_leave.
Qed.

Lemma withScope_enter options w patch :
  wf w → merge_sound options →
  let merged := Ctx.merge options (current_fields w) (fields (heap w) patch) in
  ∃ hp next m h' c,
    closed hp ∧ length (heap w) ≤ next ∧ hp !! next = Some merged
    ∧ (∀ i, i < length (heap w) → hp !! i = heap w !! i)
    ∧ m !! next = Some c ∧ deep_copy hp h' m
    ∧ wf (World h' (Some c))
    ∧ ∀ R (fn : M R),
        Ctx.withScope options patch fn w = leave (als w) (fn (World h' (Some c))).
Proof.
  intros [Hc Ha] Hm merged. destruct w as [h a]. simpl in *.
  assert (∀ hx (prev : obj), closed hx → length h ≤ length hx →
            (∀ i, i < length h → hx !! i = h !! i) →
            plain prev = true →
            (∀ c, c ∈ children prev → c < length hx) →
            closed (hx ++ [Ctx.merge options prev (fields hx patch)])) as Hclosed.
  { intros hx prev Hcx Hlen Hold Hpl Hprev. apply closed_snoc; [done| |].
    - apply merge_sound_plain; [done|done|by apply plain_fields].
    - intros c Hin. apply (merge_sound_children _ _ _ _ Hm) in Hin as [Hin|Hin];
        [by apply Hprev|]. by eapply children_fields. }
  destruct a as [l|].
  - specialize (Ha l eq_refl).
    set (hp := h ++ [merged]).
    assert (closed hp) as Hcp.
    { apply (Hclosed h (fields h l)); try done; [by apply plain_fields|].
      intros c Hin. by eapply children_fields. }
    destruct (structuredClone_spec (World hp (Some l)) (length h) Hcp)
      as (m & h' & c & E & Hmc & D).
    { unfold hp. simpl. rewrite length_app. simpl. lia. }
    exists hp, (length h), m, h', c.
    split; [done|]. split; [done|]. split; [by apply list_lookup_middle|].
    split; [intros i Hi; by apply lookup_app_l|].
    split; [done|]. split; [done|]. split; [by eapply wf_copy|]. intros R fn.
    unfold Ctx.withScope, Ctx.getStore, als_getStore, andThen, ret, Ctx.call_merge, new_object.
    simpl. unfold with_heap. simpl.
    unfold hp, merged, current_fields in E. simpl in E. rewrite E.
    by rewrite als_run_leave.
  - set (h1 := h ++ [∅]).
    assert (closed h1) as Hc1.
    { apply closed_snoc; [done|done|]. intros c Hin. by apply children_empty in Hin. }
    assert (fields h1 (length h) = ∅) as Hf1 by apply fields_snoc.
    assert (fields h1 patch = fields h patch) as Hfp.
    { unfold h1, fields. destruct (decide (patch < length h)) as [Hlt|Hge].
      - by rewrite lookup_app_l.
      - rewrite (lookup_ge_None_2 h) by lia.
        destruct (decide (patch = length h)) as [->|Hne].
        + by rewrite list_lookup_middle.
        + rewrite lookup_ge_None_2; [done|]. rewrite length_app. simpl. lia. }
    set (hp := h1 ++ [merged]).
    assert (closed hp) as Hcp.
    { unfold hp, merged. simpl. rewrite <- Hfp.
      apply (Hclosed h1 ∅); try done.
      - unfold h1. rewrite length_app. lia.
      - intros i Hi. by apply lookup_app_l.
      - intros c Hin. by apply children_empty in Hin. }
    destruct (structuredClone_spec (World hp None) (length h1) Hcp)
      as (m & h' & c & E & Hmc & D).
    { unfold hp. simpl. rewrite length_app. simpl. lia. }
    exists hp, (length h1), m, h', c.
    split; [done|]. split; [unfold h1; rewrite length_app; lia|].
    split; [by apply list_lookup_middle|].
    split.
    { intros i Hi. unfold hp, h1. rewrite lookup_app_l by (rewrite length_app; lia).
      by apply lookup_app_l. }
    split; [done|]. split; [done|]. split; [by eapply wf_copy|]. intros R fn.
    unfold Ctx.withScope, Ctx.getStore, als_getStore, andThen, ret, Ctx.call_merge, new_object.
    simpl. unfold with_heap. simpl. fold h1. rewrite Hf1, Hfp.
    unfold hp, merged, current_fields in E. simpl in E.
    replace (length (h ++ [∅])) with (length h1) by done.
    rewrite E. by rewrite als_run_leave.
Qed.

Lemma bind_in_scope {A B} (fn : A → M B) opts w c :
  als w = Some c →
  Ctx.bind fn opts w
  = (Ret (fun args =>
            s <- (if Ctx.is_live opts then ret c else structuredClone c) ;;
            als_run s (fn args)), w).
Proof. intros H. ctx_unfold. by rewrite H. Qed.

Lemma bind_no_scope {A B} (fn : A → M B) opts w :
  als w = None → Ctx.bind fn opts w = (Ret fn, w).
Proof. intros H. ctx_unfold. by rewrite H. Qed.

Lemma get_key_in_scope k w l :
  als w = Some l → Ctx.get (Some k) w = (Ret (get_property (fields (heap w) l) k), w).
Proof. intros H. ctx_unfold. by rewrite H. Qed.

Lemma set_keeps_outside c options patch w2 i :
  als w2 = Some c → i < length (heap w2) → i ≠ c →
  heap (Ctx.set options patch w2).2 !! i = heap w2 !! i.
Proof.
  intros Ha Hi Hne. apply set_frame; [done|]. rewrite Ha. congruence.
Qed.

(** What is seen from the store [c] depends only on the objects allocated
    between [n] and the end of the heap, when everything below [c] was
    allocated there. *)
Lemma scope_view_stable n c w1 w2 :
  als w1 = Some c → als w2 = Some c →
  (∀ x, reach (heap w1) c x → n ≤ x < length (heap w1)) →
  (∀ i, n ≤ i → i < length (heap w1) → heap w2 !! i = heap w1 !! i) →
  (∀ key, (Ctx.get key w2).1 = (Ctx.get key w1).1)
  ∧ ∀ x, reach (heap w1) c x → fields (heap w2) x = fields (heap w1) x.
Proof.
  intros H1 H2 Hfresh Hsame.
  assert (∀ x, reach (heap w1) c x → fields (heap w2) x = fields (heap w1) x) as Hview.
  { intros x Hx. apply Hfresh in Hx. unfold fields. rewrite Hsame; [done|lia|lia]. }
  split; [|done]. intros [k|].
  - rewrite (get_key_in_scope k w1 c H1), (get_key_in_scope k w2 c H2). simpl.
    rewrite Hview; [done|]. apply reach_here.
  - ctx_unfold. by rewrite H1, H2.
Qed.

(** ** Where the copy fails *)

(** An object that holds a function is not copied. *)
Lemma structuredClone_function l w k name :
  fields (heap w) l !! k = Some (VFun name) →
  structuredClone l w = (Throw DataCloneError, w).
Proof.
  intros Hk. unfold structuredClone. cbn [copy_graph fst snd].
  rewrite lookup_empty. unfold fields in Hk.
  destruct (heap w !! l) as [o|]; [|done]. simpl in Hk.
  destruct (cloneable o) eqn:E; [|done].
  rewrite cloneable_spec in E. by specialize (E _ _ Hk).
Qed.

(** [with] allocates [merge(current, patch)], on [{}] when no scope is
    active, and goes on as [run] does on that object. *)
Lemma withScope_clone options patch {R} (fn : M R) w :
  let merged := Ctx.merge options (current_fields w) (fields (heap w) patch) in
  ∃ hp next,
    length (heap w) ≤ next
    ∧ hp !! next = Some merged
    ∧ (∀ i, i < length (heap w) → hp !! i = heap w !! i)
    ∧ Ctx.withScope options patch fn w
      = (c <- structuredClone next ;; als_run c fn) (with_heap hp w).
Proof.
  intros merged. destruct w as [h [l|]]; unfold merged, current_fields; simpl.
  - exists (h ++ [Ctx.merge options (fields h l) (fields h patch)]), (length h).
    split; [done|]. split; [by apply list_lookup_middle|].
    split; [intros i Hi; by apply lookup_app_l|]. reflexivity.
  - set (h1 := h ++ [∅]).
    assert (fields h1 (length h) = ∅) as Hf1 by apply fields_snoc.
    assert (fields h1 patch = fields h patch) as Hfp.
    { unfold h1, fields. destruct (decide (patch < length h)) as [Hlt|Hge].
      - by rewrite lookup_app_l.
      - rewrite (lookup_ge_None_2 h) by lia.
        destruct (decide (patch = length h)) as [->|Hne].
        + by rewrite list_lookup_middle.
        + rewrite lookup_ge_None_2; [done|]. rewrite length_app. simpl. lia. }
    exists (h1 ++ [Ctx.merge options ∅ (fields h patch)]), (length h1).
    split; [unfold h1; rewrite length_app; lia|].
    split; [by apply list_lookup_middle|]. split.
    { intros i Hi. unfold h1. rewrite lookup_app_l by (rewrite length_app; lia).
      by apply lookup_app_l. }
    unfold Ctx.withScope, Ctx.getStore, als_getStore, andThen, ret, Ctx.call_merge, new_object.
    simpl. unfold with_heap. simpl. fold h1. by rewrite Hf1, Hfp.
Qed.

Lemma Object_prototype_defined k v : Object_prototype !! k = Some v → v ≠ VUndef.
Proof.
  revert k v. change (map_Forall (fun _ v => v ≠ VUndef) Object_prototype).
  refine (bool_decide_unpack _ _). vm_compute. exact I.
Qed.

(** * Theorems *)

(** ** Snapshot bindings *)

(** Without [live] the copy handed to the function is made by the call. *)
Lemma bind_snapshot_copies_at_call {A B} (fn : A → M B) opts w c :
  Ctx.is_live opts = false → als w = Some c →
  ∃ bound, Ctx.bind fn opts w = (Ret bound, w)
    ∧ ∀ a w2, bound a w2 = (s <- structuredClone c ;; als_run s (fn a)) w2.
Proof.
  intros Hlive Ha. eexists. split; [by apply bind_in_scope|].
  intros a w2. by rewrite Hlive.
Qed.

(** C1 on the code: a function bound without [live] is given a copy of the
    captured store taken at each call, not at the bind.  With the store
    [{x: 1}] bound and then set to [{x: 2}], the bound function called after
    the scope has ended reads 2, under the default options and under
    [{live: false}] alike. *)
Theorem bind_snapshot_sees_later_set :
  (test_bind snapshot_opts 2 empty_world).1 = Ret (VNum 2, VNum 2)
  ∧ (test_bind explicit_snapshot_opts 2 empty_world).1 = Ret (VNum 2, VNum 2).
Proof. split; vm_compute; reflexivity. Qed.

(** ** Leaving [run] and [with] *)

Lemma clone_run_exit {R} (x : loc) (fn : M R) w :
  als ((c <- structuredClone x ;; als_run c fn) w).2 = als w
  ∧ ∀ l, l < length (heap w) →
      (∀ w1, l < length (heap w1) → als w1 ≠ Some l → heap (fn w1).2 !! l = heap w1 !! l) →
      heap ((c <- structuredClone x ;; als_run c fn) w).2 !! l = heap w !! l.
Proof.
  unfold andThen.
  destruct (structuredClone_cases x w) as [E|(c & h' & E & Hc & K)]; rewrite E.
  - done.
  - rewrite als_run_leave. unfold leave. simpl. split; [done|].
    intros l Hl Hfn. rewrite Hfn; simpl.
    + by apply K.
    + lia.
    + intros [=]. lia.
Qed.

(** C2, as the code has it.  When [run] or [with] ends, by a return or by a
    throw, the store that was current at entry is current again; and its
    properties are those it had at entry whenever [fn] writes to that object
    only while it is the current store. *)
Theorem scope_exit_restores_caller options {R} (fn : M R) w initial patch :
  als (Ctx.run initial fn w).2 = als w
  ∧ als (Ctx.withScope options patch fn w).2 = als w
  ∧ ∀ l, als w = Some l → l < length (heap w) →
      (∀ w1, l < length (heap w1) → als w1 ≠ Some l →
         heap (fn w1).2 !! l = heap w1 !! l) →
      fields (heap (Ctx.run initial fn w).2) l = fields (heap w) l
      ∧ fields (heap (Ctx.withScope options patch fn w).2) l = fields (heap w) l.
Proof.
  split; [apply clone_run_exit|]. split.
  - unfold Ctx.withScope, Ctx.getStore, als_getStore.
    unfold andThen at 1 2 3. simpl.
    destruct (als w) as [l|] eqn:Ha; simpl.
    + match goal with |- als (andThen _ _ ?w0).2 = _ =>
        destruct (clone_run_exit (length (heap w)) fn w0) as [H _] end.
      simpl in H. by rewrite H, Ha.
    + match goal with |- als (andThen _ _ ?w0).2 = _ =>
        destruct (clone_run_exit (length (heap w ++ [∅])) fn w0) as [H _] end.
      simpl in H. by rewrite H, Ha.
  - intros l Ha Hl Hfn. split.
    + unfold fields. f_equal. by apply clone_run_exit.
    + unfold Ctx.withScope, Ctx.getStore, als_getStore.
      unfold andThen at 1 2 3. simpl. rewrite Ha. simpl.
      match goal with |- fields (heap (andThen _ _ ?w0).2) _ = _ =>
        destruct (clone_run_exit (length (heap w)) fn w0) as [_ H] end.
      unfold fields. rewrite H; simpl.
      * by rewrite lookup_app_l.
      * rewrite length_app. lia.
      * done.
Qed.

Lemma throw_keeps_objects l (e : exn) (m : M unit) :
  (∀ w1, l < length (heap w1) → als w1 ≠ Some l → heap (m w1).2 !! l = heap w1 !! l) →
  ∀ w1, l < length (heap w1) → als w1 ≠ Some l →
    heap ((m ;; throw (A := value) e) w1).2 !! l = heap w1 !! l.
Proof.
  intros Hm w1 Hl Ha. unfold andThen, throw. specialize (Hm w1 Hl Ha).
  by destruct (m w1) as [[[]|e'] w2].
Qed.

Lemma scope_exit_restores_caller_witness :
  let fn := (Ctx.set None 2 ;; throw (A := value) (Thrown (VStr "boom"))) in
  (Ctx.withScope None 1 fn nested_world).1 = Throw (Thrown (VStr "boom"))
  ∧ als (Ctx.withScope None 1 fn nested_world).2 = Some 0
  ∧ fields (heap (Ctx.withScope None 1 fn nested_world).2) 0
    = {[ "a" := VNum 1; "b" := VNum 2 ]}.
Proof.
  intros fn. split; [vm_compute; reflexivity|].
  destruct (scope_exit_restores_caller None fn nested_world 0 1) as (_ & Hals & Hfields).
  split; [exact Hals|].
  destruct (Hfields 0) as [_ Hw]; [reflexivity|simpl; lia| |].
  - apply throw_keeps_objects. intros w1 Hl Ha. by apply (conf_keep _ (confined_set None 2)).
  - rewrite Hw. reflexivity.
Defined.

(** C2 as stated fails: [with(patch, fn)] ends with the caller's store
    changed when [fn] calls a function bound live to that store. *)
Lemma with_live_alias_changes_parent :
  ∃ bump,
    Ctx.bind bump_parent live_opts nested_world = (Ret bump, nested_world)
    ∧ als nested_world = Some 0
    ∧ fields (heap nested_world) 0 !! "a" = Some (VNum 1)
    ∧ (Ctx.withScope None 1 (bump tt) nested_world).1 = Ret tt
    ∧ fields (heap (Ctx.withScope None 1 (bump tt) nested_world).2) 0 !! "a"
      = Some (VNum 2).
Proof.
  eexists. split; [reflexivity|]. split; [reflexivity|]. split; [reflexivity|].
  split; vm_compute; reflexivity.
Qed.

(** ** The store of a nested scope *)

(** C3. [with(patch, fn)] runs [fn] with a new object current that holds
    [merge(current, patch)], the root of a deep copy: nothing below it
    existed before the call.  A [set] in the nested scope writes to no object
    that existed before the call, and when [with] ends, after any sequence of
    [set] calls or any function that writes only to the store it runs in,
    every such object, the store of the parent scope among them, is as it
    was at entry.  Scenario B of the spec runs as written. *)
Theorem withScope_copy_on_enter options w patch :
  wf w → merge_sound options →
  let merged := Ctx.merge options (current_fields w) (fields (heap w) patch) in
  (test_with empty_world).1
  = Ret ({[ "a" := VNum 1; "b" := VNum 2 ]},
         {[ "a" := VNum 1; "b" := VNum 3 ]},
         {[ "a" := VNum 10; "b" := VNum 3 ]},
         VNum 10,
         {[ "a" := VNum 1; "b" := VNum 2 ]})
  ∧ ∃ m c w1,
    (∀ R (fn : M R), Ctx.withScope options patch fn w = leave (als w) (fn w1))
    ∧ als w1 = Some c
    ∧ wf w1
    ∧ length (heap w) ≤ c
    ∧ fields (heap w1) c = rename m <$> merged
    ∧ (∀ a, a ∈ children merged → is_Some (m !! a))
    ∧ (∀ a a', m !! a = Some a' → a < length (heap w) →
         length (heap w) ≤ a'
         ∧ fields (heap w1) a' = rename m <$> fields (heap w) a
         ∧ ∀ b, b ∈ children (fields (heap w) a) → is_Some (m !! b))
    ∧ (∀ x, reach (heap w1) c x → length (heap w) ≤ x)
    ∧ (∀ i, i < length (heap w) → heap w1 !! i = heap w !! i)
    ∧ (∀ options' p w2 i,
         als w2 = Some c → i < length (heap w) → i < length (heap w2) →
         heap (Ctx.set options' p w2).2 !! i = heap w2 !! i)
    ∧ (∀ options' (ps : list obj) i, i < length (heap w) →
         heap (Ctx.withScope options patch
                 (for_each ps (set_literal options')) w).2 !! i = heap w !! i)
    ∧ (∀ R (fn : M R), confined fn → ∀ i, i < length (heap w) →
         heap (Ctx.withScope options patch fn w).2 !! i = heap w !! i).
Proof.
  intros Hwf Hms merged. split; [exact test_with_ok|].
  destruct (withScope_enter options w patch Hwf Hms)
    as (hp & next & m & h' & c & Hcp & Hnext & Hmg & Hold & Hm & D & Hwf1 & E).
  fold merged in Hmg.
  pose proof (copy_fresh _ _ _ D _ _ Hm) as [Hn1 Hn2].
  destruct (copy_cells _ _ _ D _ _ Hm) as (o & Ho & Hcell & Hch).
  assert (o = merged) as -> by congruence.
  exists m, c, (World h' (Some c)). simpl.
  split; [done|]. split; [done|]. split; [done|]. split; [lia|].
  split; [by apply fields_lookup|]. split; [done|].
  assert (∀ R (fn : M R), confined fn → ∀ i, i < length (heap w) →
            heap (Ctx.withScope options patch fn w).2 !! i = heap w !! i) as Hexit.
  { intros R fn Hfn i Hi. rewrite E. unfold leave. simpl.
    rewrite (conf_keep _ Hfn); simpl.
    - rewrite (copy_keeps _ _ _ D) by lia. by apply Hold.
    - pose proof (copy_length _ _ _ D). lia.
    - intros [=]. lia. }
  split; [|split; [|split; [|split; [|split; [|done]]]]].
  - intros a a' Ha Hlt. pose proof (copy_fresh _ _ _ D _ _ Ha) as [_ Hr].
    destruct (copy_cells _ _ _ D _ _ Ha) as (oa & Hoa & Hca & Hcha).
    rewrite Hold in Hoa by done.
    rewrite (fields_lookup _ _ _ Hoa), (fields_lookup _ _ _ Hca).
    split; [lia|]. done.
  - intros x Hx. pose proof (deep_copy_reach_fresh _ _ _ _ _ _ D Hm Hx). lia.
  - intros i Hi. rewrite (copy_keeps _ _ _ D) by lia. by apply Hold.
  - intros options' p w2 i Ha Hi Hi2. apply (set_keeps_outside c); [done|done|lia].
  - intros options' ps i Hi. apply Hexit; [|done].
    apply confined_for_each. intros o. apply confined_set_literal.
Qed.

Lemma wf_nested_world : wf nested_world.
Proof.
  split.
  - refine (bool_decide_unpack _ _). vm_compute. exact I.
  - intros l [= <-]. simpl. lia.
Defined.

Lemma withScope_copy_on_enter_witness :
  ∃ m c w1,
    (∀ R (fn : M R), Ctx.withScope None 1 fn nested_world = leave (Some 0) (fn w1))
    ∧ als w1 = Some c
    ∧ fields (heap w1) c = rename m <$> {[ "a" := VNum 1; "b" := VNum 3 ]}
    ∧ heap (Ctx.withScope None 1 (Ctx.set None 2) nested_world).2 !! 0
      = Some {[ "a" := VNum 1; "b" := VNum 2 ]}.
Proof.
  destruct (withScope_copy_on_enter None nested_world 1 wf_nested_world merge_sound_default)
    as (_ & m & c & w1 & E & Ha & _ & _ & Hf & _ & _ & _ & _ & _ & _ & Hexit).
  exists m, c, w1. split; [exact E|]. split; [exact Ha|]. split.
  - rewrite Hf. reflexivity.
  - rewrite (Hexit unit (Ctx.set None 2) (confined_set None 2) 0); [reflexivity|simpl; lia].
Defined.

(** ** The default merge *)

(** C4. Under the default merge, [set(patch)] leaves in the store the value
    of the patch for each property the patch has, whole, and the previous
    value for every other property. *)
Theorem set_default_shallow_merge w l patch :
  als w = Some l → l < length (heap w) →
  ∀ k, fields (heap (Ctx.set None patch w).2) l !! k
       = match fields (heap w) patch !! k with
         | Some v => Some v
         | None => fields (heap w) l !! k
         end.
Proof.
  intros Ha Hl k. rewrite (set_in_scope None patch w l Ha Hl). simpl.
  rewrite fields_insert_eq by (rewrite length_app; lia).
  apply defaultMerge_lookup.
Qed.

Lemma set_default_shallow_merge_witness :
  fields (heap (Ctx.set None 3 shallow_merge_world).2) 1 !! "a" = Some (VNum 1)
  ∧ fields (heap (Ctx.set None 3 shallow_merge_world).2) 1 !! "b" = Some (VRef 2)
  ∧ fields (heap (Ctx.set None 3 shallow_merge_world).2) 2 = {[ "y" := VNum 2 ]}.
Proof.
  split; [|split].
  - rewrite (set_default_shallow_merge shallow_merge_world 1 3); [reflexivity|reflexivity|simpl; lia].
  - rewrite (set_default_shallow_merge shallow_merge_world 1 3); [reflexivity|reflexivity|simpl; lia].
  - vm_compute. reflexivity.
Defined.

(** ** [set] writes in place *)

(** C5. In a scope, [set(patch)] leaves the same object current, holding the
    properties of [merge(store, patch)]; a function or an emitter listener
    bound live to that object before the [set] reads the new properties when
    it is called afterwards, whatever store is current at the call. *)
Theorem set_in_place_visible_to_live options w l patch :
  als w = Some l → l < length (heap w) →
  let merged := Ctx.merge options (fields (heap w) l) (fields (heap w) patch) in
  let w' := (Ctx.set options patch w).2 in
  als w' = Some l
  ∧ fields (heap w') l = merged
  ∧ (∀ A B (fn : A → M B), ∃ bound,
       Ctx.bind fn live_opts w = (Ret bound, w)
       ∧ ∀ a outside,
           bound a (with_als outside w') = leave outside (fn a (with_als (Some l) w')))
  ∧ (∀ k outside, ∃ bound,
       Ctx.bind (fun _ : unit => Ctx.get (Some k)) live_opts w = (Ret bound, w)
       ∧ (bound tt (with_als outside w')).1 = Ret (get_property merged k))
  ∧ (∀ evt k outside, ∃ e e' h,
       Ctx.bindEmitter new_EventEmitter live_opts w = (Ret e, w)
       ∧ register on e evt (fun _ => Ctx.get (Some k)) w = (Ret e', w)
       ∧ listeners e' = [Entry evt false h]
       ∧ (h [] (with_als outside w')).1 = Ret (get_property merged k)).
Proof.
  intros Ha Hl merged w'.
  assert (als w' = Some l) as Ha'.
  { unfold w'. rewrite (set_in_scope _ _ _ _ Ha Hl). done. }
  assert (fields (heap w') l = merged) as Hf.
  { unfold w'. rewrite (set_in_scope _ _ _ _ Ha Hl). simpl.
    apply fields_insert_eq. rewrite length_app. lia. }
  assert (∀ A B (fn : A → M B) a outside,
            (s <- (if Ctx.is_live live_opts then ret l else structuredClone l) ;;
             als_run s (fn a)) (with_als outside w')
            = leave outside (fn a (with_als (Some l) w'))) as Hcall.
  { intros A B fn a outside. simpl. unfold andThen, ret. by rewrite als_run_leave. }
  split; [done|]. split; [done|]. split; [|split].
  - intros A B fn. eexists. split; [by apply bind_in_scope|]. apply Hcall.
  - intros k outside. eexists. split; [by apply bind_in_scope|].
    pose proof (Hcall unit value (fun _ => Ctx.get (Some k)) tt outside) as Hk.
    cbv beta in Hk |- *. rewrite Hk. unfold leave.
    rewrite (get_key_in_scope k _ l) by done. simpl. by rewrite Hf.
  - intros evt k outside.
    eexists _, _, _. split; [reflexivity|].
    unfold register, andThen. cbn [on listeners]. unfold andThen.
    rewrite (bind_in_scope _ _ w l Ha).
    split; [reflexivity|]. split; [reflexivity|].
    pose proof (Hcall (list value) value (fun _ => Ctx.get (Some k)) [] outside) as Hk.
    cbv beta in Hk |- *. rewrite Hk. unfold leave.
    rewrite (get_key_in_scope k _ l) by done. simpl. by rewrite Hf.
Qed.

Lemma set_in_place_visible_to_live_witness :
  ∃ bound,
    Ctx.bind (fun _ : unit => Ctx.get (Some "x")) live_opts live_binding_world
    = (Ret bound, live_binding_world)
    ∧ (bound tt (with_als None (Ctx.set None 1 live_binding_world).2)).1 = Ret (VNum 2).
Proof.
  destruct (set_in_place_visible_to_live None live_binding_world 0 1)
    as (_ & _ & _ & H & _); [reflexivity|simpl; lia|].
  destruct (H "x" None) as (bound & Hb & Hr).
  exists bound. split; [exact Hb|]. rewrite Hr. vm_compute. reflexivity.
Defined.

(** ** The strict accessor *)

Lemma bound_call_returns {A B} (fn : A → M B) opts w0 c w :
  als w0 = Some c → closed (heap w) → c < length (heap w) →
  ∃ bound, Ctx.bind fn opts w0 = (Ret bound, w0)
    ∧ ∀ a, ∃ w1, bound a w = leave (als w) (fn a w1).
Proof.
  intros Ha Hc Hl. eexists. split; [by apply bind_in_scope|].
  intros a. unfold andThen. destruct (Ctx.is_live opts).
  - eexists. unfold ret. by rewrite als_run_leave.
  - destruct (structuredClone_spec w c Hc Hl) as (m & h' & c' & E & _ & _).
    rewrite E. eexists. by rewrite als_run_leave.
Qed.

(** C6, as the code has it.  [use()] throws the no-active-context error,
    whose message tells the caller to wrap the code in [ctx.run(...)], when
    no scope is active, and returns the active store in a scope.  [has],
    [get], [set], [bind] and [bindEmitter] always return.  [run], [with] and
    a bound function end as the function they call ends on plain data; on
    any data they either do that or fail with the [DataCloneError] of the
    copy they make, before that function is called, and fail they do when
    the object to copy holds a function.  That error is not the error of
    [use]. *)
Theorem use_strict_accessor w :
  (als w = None → Ctx.use w = (Throw Ctx.NoActiveContextError, w))
  ∧ (∃ msg, Ctx.NoActiveContextError = Error msg
       ∧ String.index 0 "No active context" msg = Some 0
       ∧ is_Some (String.index 0 "wrap your code with ctx.run(...)" msg))
  ∧ (∀ l, als w = Some l → Ctx.use w = (Ret (VRef l), w))
  ∧ (∃ b, Ctx.has w = (Ret b, w))
  ∧ (∀ key, ∃ v, Ctx.get key w = (Ret v, w))
  ∧ (∀ options patch, (Ctx.set options patch w).1 = Ret tt)
  ∧ (∀ A B (fn : A → M B) opts, ∃ bound, Ctx.bind fn opts w = (Ret bound, w))
  ∧ (∀ e opts, ∃ e', Ctx.bindEmitter e opts w = (Ret e', w))
  ∧ (wf w →
       (∀ initial R (fn : M R), initial < length (heap w) →
          ∃ w1, Ctx.run initial fn w = leave (als w) (fn w1))
       ∧ (∀ options patch R (fn : M R), merge_sound options →
            ∃ w1, Ctx.withScope options patch fn w = leave (als w) (fn w1))
       ∧ (∀ A B (fn : A → M B) opts w0 c, als w0 = Some c → c < length (heap w) →
            ∃ bound, Ctx.bind fn opts w0 = (Ret bound, w0)
              ∧ ∀ a, ∃ w1, bound a w = leave (als w) (fn a w1)))
  ∧ (∀ initial R (fn : M R),
       Ctx.run initial fn w = (Throw DataCloneError, w)
       ∨ ∃ w1, Ctx.run initial fn w = leave (als w) (fn w1))
  ∧ (∀ options patch R (fn : M R),
       (∃ w', Ctx.withScope options patch fn w = (Throw DataCloneError, w')
              ∧ als w' = als w
              ∧ ∀ i, i < length (heap w) → heap w' !! i = heap w !! i)
       ∨ ∃ w1, Ctx.withScope options patch fn w = leave (als w) (fn w1))
  ∧ (∀ A B (fn : A → M B) opts w0 c, als w0 = Some c →
       ∃ bound, Ctx.bind fn opts w0 = (Ret bound, w0)
         ∧ ∀ a, bound a w = (Throw DataCloneError, w)
                ∨ ∃ w1, bound a w = leave (als w) (fn a w1))
  ∧ (∀ initial k name R (fn : M R),
       fields (heap w) initial !! k = Some (VFun name) →
       Ctx.run initial fn w = (Throw DataCloneError, w))
  ∧ (∀ options patch k name R (fn : M R),
       Ctx.merge options (current_fields w) (fields (heap w) patch) !! k
       = Some (VFun name) →
       ∃ w', Ctx.withScope options patch fn w = (Throw DataCloneError, w')
             ∧ als w' = als w
             ∧ ∀ i, i < length (heap w) → heap w' !! i = heap w !! i)
  ∧ (∀ A B (fn : A → M B) opts w0 c k name,
       als w0 = Some c → Ctx.is_live opts = false →
       fields (heap w) c !! k = Some (VFun name) →
       ∃ bound, Ctx.bind fn opts w0 = (Ret bound, w0)
         ∧ ∀ a, bound a w = (Throw DataCloneError, w))
  ∧ DataCloneError ≠ Ctx.NoActiveContextError.
Proof.
  split; [|split; [|split; [|split; [|split; [|split; [|split; [|split; [|split;
    [|split; [|split; [|split; [|split; [|split; [|split]]]]]]]]]]]]]].
  - intros H. ctx_unfold. by rewrite H.
  - eexists. split; [reflexivity|]. split; [reflexivity|]. vm_compute. eauto.
  - intros l H. ctx_unfold. by rewrite H.
  - ctx_unfold. simpl. eauto.
  - intros key. ctx_unfold. simpl.
    destruct (als w); [destruct key|]; eauto.
  - intros options patch. apply set_frame.
  - intros A B fn opts. ctx_unfold. simpl.
    destruct (als w); eauto.
  - intros e opts. unfold Ctx.bindEmitter. eauto.
  - intros [Hc Ha]. split; [|split].
    + intros initial R fn Hl.
      destruct (run_enter w initial Hc Hl) as (m & h' & c & _ & _ & _ & E). eauto.
    + intros options patch R fn Hm.
      destruct (withScope_enter options w patch (conj Hc Ha) Hm)
        as (hp & next & m & h' & c & _ & _ & _ & _ & _ & _ & _ & E). eauto.
    + intros A B fn opts w0 c Ha0 Hl. by apply (bound_call_returns fn opts w0 c w).
  - intros initial R fn. unfold Ctx.run, andThen.
    destruct (structuredClone_cases initial w) as [E|(c & h' & E & _ & _)]; rewrite E;
      [by left|right]. rewrite als_run_leave. eauto.
  - intros options patch R fn.
    destruct (withScope_clone options patch fn w) as (hp & next & _ & _ & Hold & ->).
    unfold andThen.
    destruct (structuredClone_cases next (with_heap hp w)) as [E|(c & h' & E & _ & _)];
      rewrite E; [left; eauto|right].
    rewrite als_run_leave. simpl. eauto.
  - intros A B fn opts w0 c Ha0. eexists. split; [by apply bind_in_scope|].
    intros a. unfold andThen. destruct (Ctx.is_live opts).
    + right. unfold ret. rewrite als_run_leave. eauto.
    + destruct (structuredClone_cases c w) as [E|(c' & h' & E & _ & _)]; rewrite E;
        [by left|right]. rewrite als_run_leave. eauto.
  - intros initial k name R fn Hk. unfold Ctx.run, andThen.
    by rewrite (structuredClone_function _ _ _ _ Hk).
  - intros options patch k name R fn Hk.
    destruct (withScope_clone options patch fn w) as (hp & next & _ & Hn & Hold & ->).
    unfold andThen.
    rewrite (structuredClone_function next (with_heap hp w) k name); [eauto|].
    simpl. by rewrite (fields_lookup _ _ _ Hn).
  - intros A B fn opts w0 c k name Ha0 Hlive Hk.
    eexists. split; [by apply bind_in_scope|].
    intros a. rewrite Hlive. unfold andThen.
    by rewrite (structuredClone_function _ _ _ _ Hk).
  - done.
Qed.

Lemma use_strict_accessor_witness :
  Ctx.use empty_world = (Throw Ctx.NoActiveContextError, empty_world)
  ∧ Ctx.use live_binding_world = (Ret (VRef 0), live_binding_world)
  ∧ Ctx.run 1 Ctx.use logger_world = (Throw DataCloneError, logger_world).
Proof.
  split; [|split].
  - apply (use_strict_accessor empty_world). reflexivity.
  - apply (use_strict_accessor live_binding_world). reflexivity.
  - destruct (use_strict_accessor logger_world)
      as (_ & _ & _ & _ & _ & _ & _ & _ & _ & _ & _ & _ & H & _).
    apply (H 1 "log" "console.log"). reflexivity.
Defined.

(** C6 as stated fails: [use] is not the only operation that fails.  In a
    scope, where [use] returns, [run] on [{log: console.log}], [with] with
    that patch, and a call of a function bound without [live] once the store
    holds that function all fail with a [DataCloneError]. *)
Lemma clone_fails_on_function :
  (Ctx.has logger_world).1 = Ret true
  ∧ (Ctx.use logger_world).1 = Ret (VRef 0)
  ∧ (Ctx.run 1 (ret tt) logger_world).1 = Throw (Error "DataCloneError")
  ∧ (Ctx.withScope None 1 (ret tt) logger_world).1 = Throw (Error "DataCloneError")
  ∧ (call_bound_after_set logger_world).1 = Throw (Error "DataCloneError").
Proof. repeat split; vm_compute; reflexivity. Qed.

(** ** Outside any scope *)

(** C7. With no active scope every operation but [use] returns: [has()] is
    false, [get()] and [get(key)] are undefined, [set] does nothing and
    [bind(fn)] is [fn] itself, all without effect; [bindEmitter] returns, and
    [run] and [with] end as the function they call ends. *)
Theorem no_scope_degrades w :
  als w = None →
  Ctx.has w = (Ret false, w)
  ∧ Ctx.get None w = (Ret VUndef, w)
  ∧ (∀ k, Ctx.get (Some k) w = (Ret VUndef, w))
  ∧ (∀ options patch, Ctx.set options patch w = (Ret tt, w))
  ∧ (∀ A B (fn : A → M B) opts, Ctx.bind fn opts w = (Ret fn, w))
  ∧ (∀ e opts, ∃ e', Ctx.bindEmitter e opts w = (Ret e', w))
  ∧ (closed (heap w) →
       (∀ initial R (fn : M R), initial < length (heap w) →
          ∃ w1, Ctx.run initial fn w = leave None (fn w1))
       ∧ (∀ options patch R (fn : M R), merge_sound options →
            ∃ w1, Ctx.withScope options patch fn w = leave None (fn w1))).
Proof.
  intros H.
  split; [|split; [|split; [|split; [|split; [|split]]]]];
    try (intros; ctx_unfold; by rewrite H).
  - intros e opts. unfold Ctx.bindEmitter. eauto.
  - intros Hc. split.
    + intros initial R fn Hl.
      destruct (run_enter w initial Hc Hl) as (m & h' & c & _ & _ & _ & E).
      exists (World h' (Some c)). by rewrite E, H.
    + intros options patch R fn Hm.
      destruct (withScope_enter options w patch) as
        (hp & next & m & h' & c & _ & _ & _ & _ & _ & _ & _ & E); [|done|].
      { split; [done|]. intros l Hl. congruence. }
      exists (World h' (Some c)). by rewrite E, H.
Qed.

Lemma no_scope_degrades_witness :
  Ctx.has caller_world = (Ret false, caller_world)
  ∧ Ctx.get None caller_world = (Ret VUndef, caller_world)
  ∧ Ctx.get (Some "a") caller_world = (Ret VUndef, caller_world)
  ∧ Ctx.set None 1 caller_world = (Ret tt, caller_world)
  ∧ Ctx.bind (record_x 0) None caller_world = (Ret (record_x 0), caller_world).
Proof.
  destruct (no_scope_degrades caller_world) as (H1 & H2 & H3 & H4 & H5 & _);
    [reflexivity|].
  split; [exact H1|]. split; [exact H2|]. split; [apply H3|].
  split; [apply H4|apply H5].
Defined.

(** ** [bindEmitter] *)

(** C8, as the code has it.  [bindEmitter] leaves the listeners already
    registered as they are, whatever store is current when it is called, and
    replaces each registration method the emitter has by one that files
    [bind(listener, opts)], computed when the listener is registered: the
    listener itself when no scope is active at that moment, and otherwise the
    listener bound to the store current at that moment. *)
Theorem bindEmitter_binds_at_registration e opts w :
  ∃ e', Ctx.bindEmitter e opts w = (Ret e', w)
    ∧ (∀ w0, Ctx.bindEmitter e opts w0 = (Ret e', w0))
    ∧ listeners e' = listeners e
    ∧ ∀ v, match method v e with
           | None => method v e' = None
           | Some orig =>
               ∃ reg, method v e' = Some reg
                 ∧ ∀ evt l t wr,
                     reg evt l t wr = (l' <- Ctx.bind l opts ;; orig evt l' t) wr
                     ∧ (als wr = None → reg evt l t wr = orig evt l t wr)
                     ∧ (∀ s, als wr = Some s →
                          reg evt l t wr = orig evt (bound_to opts s l) t wr)
           end.
Proof.
  eexists. split; [reflexivity|]. split; [reflexivity|]. split; [reflexivity|].
  assert (∀ (orig : registration) evt l t wr,
            (l' <- Ctx.bind l opts ;; orig evt l' t) wr
            = (l' <- Ctx.bind l opts ;; orig evt l' t) wr
            ∧ (als wr = None →
               (l' <- Ctx.bind l opts ;; orig evt l' t) wr = orig evt l t wr)
            ∧ (∀ s, als wr = Some s →
               (l' <- Ctx.bind l opts ;; orig evt l' t) wr
               = orig evt (bound_to opts s l) t wr)) as Hwrap.
  { intros orig evt l t wr. split; [done|]. split.
    - intros Ha. unfold andThen at 1.
      by rewrite (bind_no_scope l opts wr Ha).
    - intros s Ha. unfold andThen at 1. by rewrite (bind_in_scope l opts wr s Ha). }
  intros [| | | |]; simpl.
  - eexists. split; [reflexivity|]. apply Hwrap.
  - eexists. split; [reflexivity|]. apply Hwrap.
  - eexists. split; [reflexivity|]. apply Hwrap.
  - destruct (prependListener e) as [orig|]; simpl; [|done].
    eexists. split; [reflexivity|]. apply Hwrap.
  - destruct (prependOnceListener e) as [orig|]; simpl; [|done].
    eexists. split; [reflexivity|]. apply Hwrap.
Qed.

Lemma bindEmitter_binds_at_registration_witness :
  ∃ e' reg,
    Ctx.bindEmitter new_EventEmitter live_opts live_binding_world = (Ret e', live_binding_world)
    ∧ method On e' = Some reg
    ∧ (∀ evt l t, reg evt l t empty_world = on new_EventEmitter evt l t empty_world)
    ∧ (∀ evt l t, reg evt l t live_binding_world
                  = on new_EventEmitter evt (bound_to live_opts 0 l) t live_binding_world).
Proof.
  destruct (bindEmitter_binds_at_registration new_EventEmitter live_opts live_binding_world)
    as (e' & E & _ & _ & Hv).
  specialize (Hv On). simpl in Hv. destruct Hv as (reg & Hreg & H).
  exists e', reg. split; [exact E|]. split; [exact Hreg|]. split.
  - intros evt l t. apply H. reflexivity.
  - intros evt l t. apply (H evt l t live_binding_world). reflexivity.
Defined.

(** C8 as stated fails: a listener registered after [bindEmitter] does not
    see the store that was active when [bindEmitter] was called, [{x: 1}],
    but no store at all, or the store of the scope it was registered in. *)
Lemma bindEmitter_store_is_not_captured :
  (register_after_bindEmitter live_opts None empty_world).1 = Ret VUndef
  ∧ (register_after_bindEmitter snapshot_opts None empty_world).1 = Ret VUndef
  ∧ (register_after_bindEmitter live_opts (Some {[ "x" := VNum 5 ]}) empty_world).1
    = Ret (VNum 5).
Proof. repeat split; vm_compute; reflexivity. Qed.

(** ** The store of [run] *)

(** C9. [run(initial, fn)] runs [fn] with a new object current, the root of
    a deep copy of [initial]: nothing below it existed before the call.  A
    [set] in that scope writes to no object that existed before the call, so
    [initial] and all it refers to are as they were when [run] ends; and
    whatever is written to those objects is not seen from the store. *)
Theorem run_deep_copies_initial w initial :
  closed (heap w) → initial < length (heap w) →
  ∃ m c w1,
    (∀ R (fn : M R), Ctx.run initial fn w = leave (als w) (fn w1))
    ∧ als w1 = Some c
    ∧ wf w1
    ∧ m !! initial = Some c
    ∧ deep_copy (heap w) (heap w1) m
    ∧ fields (heap w1) c = rename m <$> fields (heap w) initial
    ∧ (∀ x, reach (heap w1) c x → length (heap w) ≤ x)
    ∧ (∀ options patch w2 i,
         als w2 = Some c → i < length (heap w) → i < length (heap w2) →
         heap (Ctx.set options patch w2).2 !! i = heap w2 !! i)
    ∧ (∀ options (ps : list obj) i, i < length (heap w) →
         heap (Ctx.run initial (for_each ps (set_literal options)) w).2 !! i
         = heap w !! i)
    ∧ (∀ R (fn : M R), confined fn → ∀ i, i < length (heap w) →
         heap (Ctx.run initial fn w).2 !! i = heap w !! i)
    ∧ (∀ w2, als w2 = Some c →
         (∀ i, length (heap w) ≤ i → i < length (heap w1) →
            heap w2 !! i = heap w1 !! i) →
         (∀ key, (Ctx.get key w2).1 = (Ctx.get key w1).1)
         ∧ ∀ x, reach (heap w1) c x → fields (heap w2) x = fields (heap w1) x).
Proof.
  intros Hc Hl. destruct (run_enter w initial Hc Hl) as (m & h' & c & Hm & D & Hwf1 & E).
  exists m, c, (World h' (Some c)). simpl.
  assert (∀ x, reach h' c x → length (heap w) ≤ x) as Hfresh.
  { intros x Hx. by eapply deep_copy_reach_fresh. }
  pose proof (copy_fresh _ _ _ D _ _ Hm) as [_ Hc1].
  assert (∀ R (fn : M R), confined fn → ∀ i, i < length (heap w) →
            heap (Ctx.run initial fn w).2 !! i = heap w !! i) as Hexit.
  { intros R fn Hfn i Hi. rewrite E. unfold leave. simpl.
    rewrite (conf_keep _ Hfn); simpl.
    - by apply (copy_keeps _ _ _ D).
    - pose proof (copy_length _ _ _ D). lia.
    - intros [=]. lia. }
  split; [done|]. split; [done|]. split; [done|]. split; [done|]. split; [done|].
  split; [|split; [done|split; [|split; [|split; [done|]]]]].
  - destruct (copy_cells _ _ _ D _ _ Hm) as (o & Ho & Hcell & _).
    by rewrite (fields_lookup _ _ _ Ho), (fields_lookup _ _ _ Hcell).
  - intros options patch w2 i Ha Hi Hi2. apply (set_keeps_outside c); [done|done|lia].
  - intros options ps i Hi. apply Hexit; [|done].
    apply confined_for_each. intros o. apply confined_set_literal.
  - intros w2 Ha Hsame.
    apply (scope_view_stable (length (heap w)) c (World h' (Some c)) w2); try done.
    intros x Hx. simpl in *.
    destruct (deep_copy_reach _ _ _ _ _ _ D Hm Hx) as [b Hb].
    apply (copy_fresh _ _ _ D) in Hb. lia.
Qed.

Lemma closed_caller_world : closed (heap caller_world).
Proof. refine (bool_decide_unpack _ _). vm_compute. exact I. Defined.

Lemma run_deep_copies_initial_witness :
  ∃ m c w1,
    (∀ R (fn : M R), Ctx.run 1 fn caller_world = leave None (fn w1))
    ∧ als w1 = Some c
    ∧ fields (heap w1) c = rename m <$> {[ "a" := VNum 1; "b" := VRef 0 ]}
    ∧ ∀ x, reach (heap w1) c x → 2 ≤ x.
Proof.
  destruct (run_deep_copies_initial caller_world 1 closed_caller_world)
    as (m & c & w1 & E & Ha & _ & _ & _ & Hf & Hr & _); [simpl; lia|].
  exists m, c, w1. split; [exact E|]. split; [exact Ha|]. split; [exact Hf|exact Hr].
Defined.

(** ** [get] and undefined *)

(** C10, as the code has it.  [get(key)] is undefined with no active scope,
    and in a scope it is the property [key] of the store when the store has
    one of its own, undefined when that property holds undefined.  When the
    store has no property [key] of its own, [get(key)] is what the store
    inherits under that name: undefined for a name [Object.prototype] does
    not have, and then the result alone does not tell the three cases apart;
    a member of [Object.prototype], never undefined, for the twelve names it
    has. *)
Theorem get_undefined_ambiguous (k : string) :
  (∀ w, als w = None → (Ctx.get (Some k) w).1 = Ret VUndef)
  ∧ (∀ w l v, als w = Some l → fields (heap w) l !! k = Some v →
       (Ctx.get (Some k) w).1 = Ret v)
  ∧ (∀ w l, als w = Some l → fields (heap w) l !! k = Some VUndef →
       (Ctx.get (Some k) w).1 = Ret VUndef)
  ∧ (Ctx.get (Some k) (World [] None)).1
    = (Ctx.get (Some k) (World [{[ k := VUndef ]}] (Some 0))).1
  ∧ (∀ w l, als w = Some l → fields (heap w) l !! k = None →
       (Ctx.get (Some k) w).1 = Ret (default VUndef (Object_prototype !! k)))
  ∧ (Object_prototype !! k = None →
       (∀ w l, als w = Some l → fields (heap w) l !! k = None →
          (Ctx.get (Some k) w).1 = Ret VUndef)
       ∧ (Ctx.get (Some k) (World [] None)).1 = (Ctx.get (Some k) (World [∅] (Some 0))).1)
  ∧ (∀ v, Object_prototype !! k = Some v →
       v ≠ VUndef
       ∧ (∀ w l, als w = Some l → fields (heap w) l !! k = None →
            (Ctx.get (Some k) w).1 = Ret v)
       ∧ (Ctx.get (Some k) (World [] None)).1 ≠ (Ctx.get (Some k) (World [∅] (Some 0))).1)
  ∧ (is_Some (Object_prototype !! k) ↔
     k ∈ ["constructor"; "toString"; "toLocaleString"; "valueOf"; "hasOwnProperty";
          "isPrototypeOf"; "propertyIsEnumerable"; "__proto__";
          "__defineGetter__"; "__defineSetter__"; "__lookupGetter__";
          "__lookupSetter__"]).
Proof.
  assert (∀ w l, als w = Some l → fields (heap w) l !! k = None →
            (Ctx.get (Some k) w).1 = Ret (default VUndef (Object_prototype !! k))) as Habsent.
  { intros w l Ha Hk. rewrite (get_key_in_scope k w l Ha). simpl.
    unfold get_property. by rewrite Hk. }
  assert (∀ w l v, als w = Some l → fields (heap w) l !! k = Some v →
            (Ctx.get (Some k) w).1 = Ret v) as Hown.
  { intros w l v Ha Hk. rewrite (get_key_in_scope k w l Ha). simpl.
    unfold get_property. by rewrite Hk. }
  assert (∀ w, als w = None → (Ctx.get (Some k) w).1 = Ret VUndef) as Hnone.
  { intros w Ha. ctx_unfold. by rewrite Ha. }
  split; [done|]. split; [done|]. split; [intros w l; apply Hown|].
  split.
  { rewrite (Hnone (World [] None)) by done.
    rewrite (Hown (World [{[ k := VUndef ]}] (Some 0)) 0 VUndef); [done|done|].
    simpl. apply lookup_singleton_eq. }
  split; [done|]. split; [|split].
  - intros Hk. split.
    + intros w l Ha Hf. rewrite (Habsent w l Ha Hf). by rewrite Hk.
    + rewrite (Hnone (World [] None)) by done.
      rewrite (Habsent (World [∅] (Some 0)) 0) by done. by rewrite Hk.
  - intros v Hk. pose proof (Object_prototype_defined k v Hk) as Hv.
    split; [done|]. split.
    + intros w l Ha Hf. rewrite (Habsent w l Ha Hf). by rewrite Hk.
    + rewrite (Hnone (World [] None)) by done.
      rewrite (Habsent (World [∅] (Some 0)) 0) by done. rewrite Hk. simpl.
      congruence.
  - unfold Object_prototype. rewrite !elem_of_cons, elem_of_nil.
    rewrite !lookup_insert_is_Some', lookup_singleton_is_Some.
    split; intros H; repeat (destruct H as [H|H]; [subst k; auto 20|]);
      [subst k; auto 20|done].
Qed.

Lemma get_undefined_ambiguous_witness :
  (Ctx.get (Some "x") empty_world).1 = Ret VUndef
  ∧ (Ctx.get (Some "x") (World [{[ "y" := VNum 1 ]}] (Some 0))).1 = Ret VUndef
  ∧ (Ctx.get (Some "x") (World [{[ "x" := VUndef ]}] (Some 0))).1 = Ret VUndef
  ∧ (Ctx.get (Some "valueOf") (World [{[ "y" := VNum 1 ]}] (Some 0))).1
    = Ret (VFun "Object.prototype.valueOf").
Proof.
  destruct (get_undefined_ambiguous "x") as (H1 & _ & H3 & _ & _ & H6 & _).
  destruct (get_undefined_ambiguous "valueOf") as (_ & _ & _ & _ & _ & _ & H7 & _).
  split; [|split; [|split]].
  - apply H1. reflexivity.
  - destruct H6 as [H6 _]; [reflexivity|]. apply (H6 _ 0); reflexivity.
  - apply (H3 _ 0); reflexivity.
  - destruct (H7 (VFun "Object.prototype.valueOf") eq_refl) as (_ & H & _).
    apply (H _ 0); reflexivity.
Defined.

(** C10 as stated fails: in a scope whose store is [{x: 1}], which has no
    property [toString], [constructor] or [__proto__], [get] of these keys is
    not undefined but what the store inherits from [Object.prototype]. *)
Lemma get_inherited_is_not_undefined :
  fields (heap live_binding_world) 0 = {[ "x" := VNum 1 ]}
  ∧ (Ctx.get (Some "toString") live_binding_world).1
    = Ret (VFun "Object.prototype.toString")
  ∧ (Ctx.get (Some "constructor") live_binding_world).1 = Ret (VFun "Object")
  ∧ (Ctx.get (Some "__proto__") live_binding_world).1 = Ret VObjectPrototype
  ∧ (Ctx.get (Some "toString") empty_world).1 = Ret VUndef.
Proof. repeat split; vm_compute; reflexivity. Qed.

(** * The rest of the engine *)

(** ** The middleware on the test suite *)

Example test_middleware_ok :
  (test_middleware false empty_world).1
  = Ret ({[ "n" := VNum 3;
            "init@" := VNum 0; "init" := VUndef;
            "start@" := VNum 1; "start" := VStr "abc";
            "finish@" := VNum 2; "finish" := VStr "xyz" ]}, VBool false).
Proof. vm_compute. reflexivity. Qed.

(** ** Calling a bound function *)

(** X1. A function bound in a scope, live or not, leaves the store of its
    caller current when it ends, by a return or by a throw, whatever it
    does. *)
Theorem bound_call_restores_caller {A B} (fn : A → M B) opts w c :
  als w = Some c →
  ∃ bound, Ctx.bind fn opts w = (Ret bound, w)
    ∧ ∀ a w2, als (bound a w2).2 = als w2.
Proof.
  intros Ha. eexists. split; [by apply bind_in_scope|].
  intros a w2. destruct (Ctx.is_live opts).
  - unfold andThen, ret. apply als_run_als.
  - unfold andThen.
    destruct (structuredClone_cases c w2) as [E|(c' & h' & E & _ & _)]; rewrite E;
      [done|by rewrite als_run_als].
Qed.

Lemma bound_call_restores_caller_witness :
  ∃ bound,
    Ctx.bind (fun _ : unit => throw (A := value) (Thrown (VStr "boom")))
      live_opts live_binding_world = (Ret bound, live_binding_world)
    ∧ (bound tt empty_world).1 = Throw (Thrown (VStr "boom"))
    ∧ als (bound tt empty_world).2 = None.
Proof.
  destruct (bound_call_restores_caller
              (fun _ : unit => throw (A := value) (Thrown (VStr "boom")))
              live_opts live_binding_world 0) as (bound & Hb & Hr); [reflexivity|].
  exists bound. split; [exact Hb|]. split; [|apply Hr].
  rewrite (bind_in_scope _ live_opts live_binding_world 0 eq_refl) in Hb.
  injection Hb as <-. reflexivity.
Defined.

(** X2. A function bound without [live] runs on a copy made by the call: when
    it writes only to the store it runs in, a call leaves every object in
    place as it was, the captured store among them. *)
Theorem snapshot_call_isolated {A B} (fn : A → M B) opts w c :
  Ctx.is_live opts = false → als w = Some c → (∀ a, confined (fn a)) →
  ∃ bound, Ctx.bind fn opts w = (Ret bound, w)
    ∧ ∀ a w2 i, i < length (heap w2) → heap (bound a w2).2 !! i = heap w2 !! i.
Proof.
  intros Hlive Ha Hfn. eexists. split; [by apply bind_in_scope|].
  intros a w2 i Hi. rewrite Hlive. unfold andThen.
  destruct (structuredClone_cases c w2) as [E|(c' & h' & E & Hc & K)]; rewrite E; [done|].
  destruct (als_run_fresh (fn a) c' (with_heap h' w2) (Hfn a)) as [_ F]. simpl in *.
  rewrite F by lia. by apply K.
Qed.

Lemma snapshot_call_isolated_witness :
  ∃ bound,
    Ctx.bind (fun _ : unit => Ctx.set None 1) None live_binding_world
    = (Ret bound, live_binding_world)
    ∧ (bound tt live_binding_world).1 = Ret tt
    ∧ heap (bound tt live_binding_world).2 !! 0 = Some {[ "x" := VNum 1 ]}.
Proof.
  destruct (snapshot_call_isolated (fun _ : unit => Ctx.set None 1) None live_binding_world 0)
    as (bound & Hb & Hk); [reflexivity|reflexivity|intros _; apply confined_set|].
  exists bound. split; [exact Hb|]. split.
  - rewrite (bind_in_scope _ None live_binding_world 0 eq_refl) in Hb.
    injection Hb as <-. vm_compute. reflexivity.
  - rewrite Hk; [reflexivity|simpl; lia].
Defined.

(** X3. A [set] made by a function bound live writes to the captured store,
    whatever store is current at the call, and that store is current again
    afterwards. *)
Theorem live_call_writes_through options patch w c :
  als w = Some c →
  ∃ bound, Ctx.bind (fun _ : unit => Ctx.set options patch) live_opts w = (Ret bound, w)
    ∧ ∀ w2, c < length (heap w2) →
        (bound tt w2).1 = Ret tt
        ∧ als (bound tt w2).2 = als w2
        ∧ fields (heap (bound tt w2).2) c
          = Ctx.merge options (fields (heap w2) c) (fields (heap w2) patch).
Proof.
  intros Ha. eexists. split; [by apply bind_in_scope|].
  intros w2 Hc. simpl. unfold andThen, ret. rewrite als_run_leave. unfold leave.
  rewrite (set_in_scope options patch (with_als (Some c) w2) c eq_refl Hc). simpl.
  split; [done|]. split; [done|].
  apply fields_insert_eq. rewrite length_app. lia.
Qed.

Lemma live_call_writes_through_witness :
  ∃ bound,
    Ctx.bind (fun _ : unit => Ctx.set None 1) live_opts live_binding_world
    = (Ret bound, live_binding_world)
    ∧ fields (heap (bound tt (with_als None live_binding_world)).2) 0
      = {[ "x" := VNum 2 ]}.
Proof.
  destruct (live_call_writes_through None 1 live_binding_world 0)
    as (bound & Hb & Hw); [reflexivity|].
  exists bound. split; [exact Hb|].
  destruct (Hw (with_als None live_binding_world)) as (_ & _ & Hf); [simpl; lia|].
  rewrite Hf. vm_compute. reflexivity.
Defined.

(** ** [set] *)

(** X4. [set] writes to the active store and to nothing else: every other
    object in place, the patch among them, is as it was, and the same store
    is current. *)
Theorem set_writes_only_store options patch w l :
  als w = Some l →
  als (Ctx.set options patch w).2 = Some l
  ∧ ∀ i, i < length (heap w) → i ≠ l →
      heap (Ctx.set options patch w).2 !! i = heap w !! i.
Proof.
  intros Ha. destruct (set_frame options patch w) as (_ & Hals & _ & Hk).
  split; [by rewrite Hals|].
  intros i Hi Hne. apply Hk; [done|]. rewrite Ha. congruence.
Qed.

Lemma set_writes_only_store_witness :
  als (Ctx.set None 3 shallow_merge_world).2 = Some 1
  ∧ heap (Ctx.set None 3 shallow_merge_world).2 !! 3 = Some {[ "b" := VRef 2 ]}
  ∧ heap (Ctx.set None 3 shallow_merge_world).2 !! 0 = Some {[ "x" := VNum 1 ]}.
Proof.
  destruct (set_writes_only_store None 3 shallow_merge_world 1) as [Ha Hk]; [reflexivity|].
  split; [exact Ha|]. split.
  - rewrite Hk; [reflexivity|simpl; lia|lia].
  - rewrite Hk; [reflexivity|simpl; lia|lia].
Defined.

Lemma defaultMerge_assoc (s p1 p2 : obj) :
  Ctx.defaultMerge (Ctx.defaultMerge s p1) p2
  = Ctx.defaultMerge s (Ctx.defaultMerge p1 p2).
Proof.
  unfold Ctx.defaultMerge, assign. rewrite !(right_id_L ∅ (∪)).
  by rewrite (assoc_L (∪)).
Qed.

(** X5. Under the default merge two [set] calls in a row leave the store as
    one [set] of the two patches merged, the second over the first. *)
Theorem set_set_compose w l p1 p2 :
  als w = Some l → l < length (heap w) → p2 < length (heap w) → p2 ≠ l →
  fields (heap ((Ctx.set None p1 ;; Ctx.set None p2) w).2) l
  = Ctx.defaultMerge (fields (heap w) l)
      (Ctx.defaultMerge (fields (heap w) p1) (fields (heap w) p2)).
Proof.
  intros Ha Hl Hp Hne. unfold andThen.
  rewrite (set_in_scope None p1 w l Ha Hl).
  set (mg := Ctx.merge None (fields (heap w) l) (fields (heap w) p1)).
  set (w1 := with_heap (<[l:=mg]> (heap w ++ [mg])) w).
  assert (length (heap w1) = S (length (heap w))) as Hlen.
  { unfold w1. simpl. rewrite length_insert, length_app. simpl. lia. }
  rewrite (set_in_scope None p2 w1 l) by (done || lia). simpl.
  rewrite fields_insert_eq by (rewrite length_app, length_insert, length_app; simpl; lia).
  rewrite fields_insert_eq by (rewrite length_app; lia).
  rewrite fields_insert_ne by done. rewrite fields_app_l by done.
  apply defaultMerge_assoc.
Qed.

Lemma set_set_compose_witness :
  fields (heap ((Ctx.set None 1 ;; Ctx.set None 2) nested_world).2) 0
  = {[ "a" := VNum 10; "b" := VNum 3 ]}.
Proof.
  rewrite (set_set_compose nested_world 0 1 2); [|reflexivity|simpl; lia|simpl; lia|lia].
  vm_compute. reflexivity.
Defined.

(** ** [get] and [use] *)

(** X6. In a scope [get()] and [use()] return the store object itself, not a
    copy: a property written through the reference they return is what
    [get(key)] reads next. *)
Theorem get_returns_store_itself w l :
  als w = Some l → l < length (heap w) →
  Ctx.get None w = (Ret (VRef l), w)
  ∧ Ctx.use w = (Ret (VRef l), w)
  ∧ ∀ k v,
      (((s <- Ctx.use ;;
         match s with VRef o => put_prop o k v | _ => ret tt end) ;;
        Ctx.get (Some k)) w).1 = Ret v.
Proof.
  intros Ha Hl. split; [|split].
  - ctx_unfold. by rewrite Ha.
  - ctx_unfold. by rewrite Ha.
  - intros k v. ctx_unfold. rewrite Ha. simpl. rewrite Ha. simpl.
    rewrite fields_insert_eq by done. unfold get_property.
    by rewrite lookup_insert_eq.
Qed.

Lemma get_returns_store_itself_witness :
  Ctx.get None live_binding_world = (Ret (VRef 0), live_binding_world)
  ∧ (((s <- Ctx.use ;;
       match s with VRef o => put_prop o "x" (VNum 7) | _ => ret tt end) ;;
      Ctx.get (Some "x")) live_binding_world).1 = Ret (VNum 7).
Proof.
  destruct (get_returns_store_itself live_binding_world 0) as (H1 & _ & H3);
    [reflexivity|simpl; lia|].
  split; [exact H1|apply H3].
Defined.

(** X7. In the callback of [run] and of [with], [has()] is true and [use()]
    and [get()] return one and the same object, allocated by the call; once
    the call has ended, [has()] is what it was before. *)
Theorem scope_has_use options w initial patch :
  wf w → initial < length (heap w) → merge_sound options →
  (∃ c, length (heap w) ≤ c
     ∧ (Ctx.run initial Ctx.has w).1 = Ret true
     ∧ (Ctx.run initial Ctx.use w).1 = Ret (VRef c)
     ∧ (Ctx.run initial (Ctx.get None) w).1 = Ret (VRef c))
  ∧ (∃ c, length (heap w) ≤ c
     ∧ (Ctx.withScope options patch Ctx.has w).1 = Ret true
     ∧ (Ctx.withScope options patch Ctx.use w).1 = Ret (VRef c)
     ∧ (Ctx.withScope options patch (Ctx.get None) w).1 = Ret (VRef c))
  ∧ ∀ R (fn : M R),
      (Ctx.has (Ctx.run initial fn w).2).1 = (Ctx.has w).1
      ∧ (Ctx.has (Ctx.withScope options patch fn w).2).1 = (Ctx.has w).1.
Proof.
  intros [Hc Ha] Hl Hm.
  destruct (run_enter w initial Hc Hl) as (m & h' & c & Hmc & D & _ & E).
  destruct (withScope_enter options w patch (conj Hc Ha) Hm)
    as (hp & next & m' & h'' & c' & _ & Hn & _ & _ & Hmc' & D' & _ & E').
  split; [|split].
  - exists c. split; [apply (copy_fresh _ _ _ D) in Hmc; lia|].
    rewrite !E. done.
  - exists c'. split; [apply (copy_fresh _ _ _ D') in Hmc'; lia|].
    rewrite !E'. done.
  - intros R fn. rewrite E, E'. done.
Qed.

Lemma scope_has_use_witness :
  (Ctx.run 0 Ctx.has nested_world).1 = Ret true
  ∧ (Ctx.has (Ctx.run 0 (Ctx.set None 1) nested_world).2).1 = Ret true
  ∧ ∃ c, 3 ≤ c ∧ (Ctx.withScope None 1 Ctx.use nested_world).1 = Ret (VRef c).
Proof.
  destruct (scope_has_use None nested_world 0 1 wf_nested_world)
    as ((c & _ & H1 & _) & (c' & Hc' & _ & H2 & _) & H3);
    [simpl; lia|exact merge_sound_default|].
  split; [exact H1|]. split; [apply (H3 unit (Ctx.set None 1))|].
  exists c'. split; [exact Hc'|exact H2].
Defined.

(** ** The Express middleware *)

Lemma andThen_Ret {A B} (m : M A) (k : A → M B) w a w' :
  m w = (Ret a, w') → andThen m k w = k a w'.
Proof. intros H. unfold andThen. by rewrite H. Qed.

Lemma andThen_Throw {A B} (m : M A) (k : A → M B) w e w' :
  m w = (Throw e, w') → andThen m k w = (Throw e, w').
Proof. intros H. unfold andThen. by rewrite H. Qed.

(** What runs inside the scope the middleware opens. *)
Lemma express_unfold opts res next w :
  Middleware.express opts res next w
  = (initial <- Middleware.initial_store opts ;;
     Ctx.run initial (
       Middleware.call_hook (Middleware.onStart_of opts) ;;
       finish <- Ctx.bind (Middleware.finish_callback opts) None ;;
       res <- register on res "finish" finish ;;
       res <- register on res "close" finish ;;
       next ;;
       ret res)) w.
Proof. reflexivity. Qed.

Lemma express_after_start opts res (next : M unit) w2 c :
  als w2 = Some c → on res = append_listener false →
  (finish <- Ctx.bind (Middleware.finish_callback opts) None ;;
   res <- register on res "finish" finish ;;
   res <- register on res "close" finish ;;
   next ;;
   ret res) w2
  = (next ;; ret (with_finish opts c res)) w2.
Proof.
  intros Ha Hon. unfold andThen at 1.
  rewrite (bind_in_scope (Middleware.finish_callback opts) None w2 c Ha).
  unfold register, andThen, ret. rewrite Hon. simpl. rewrite Hon. simpl.
  unfold with_finish, finish_handler, bound_to, with_listeners. simpl.
  rewrite <- app_assoc. simpl. by destruct (next w2) as [[[]|e] w3].
Qed.

Lemma express_enter opts res (next : M unit) w initial wi :
  Middleware.initial_store opts w = (Ret initial, wi) →
  closed (heap wi) → initial < length (heap wi) → on res = append_listener false →
  ∃ m c h1,
    m !! initial = Some c ∧ deep_copy (heap wi) h1 m
    ∧ (∀ w2, Middleware.call_hook (Middleware.onStart_of opts) (World h1 (Some c))
             = (Ret tt, w2) → als w2 = Some c →
         Middleware.express opts res next w
         = leave (als wi) ((next ;; ret (with_finish opts c res)) w2))
    ∧ (∀ e w2, Middleware.call_hook (Middleware.onStart_of opts) (World h1 (Some c))
               = (Throw e, w2) →
         Middleware.express opts res next w = (Throw e, with_als (als wi) w2)).
Proof.
  intros Hi Hc Hl Hon.
  destruct (run_enter wi initial Hc Hl) as (m & h1 & c & Hm & D & _ & E).
  exists m, c, h1. split; [done|]. split; [done|].
  rewrite express_unfold. rewrite (andThen_Ret _ _ _ _ _ Hi). rewrite E.
  split.
  - intros w2 Hs Ha. rewrite (andThen_Ret _ _ _ _ _ Hs).
    by rewrite (express_after_start opts res next w2 c Ha Hon).
  - intros e w2 Hs. by rewrite (andThen_Throw _ _ _ _ _ Hs).
Qed.

(** X8. When [init] fails the middleware fails with the same error and does
    nothing else: no scope is opened, and neither [onStart] nor [next] is
    called. *)
Theorem express_init_failure opts res next w e wi :
  Middleware.initial_store opts w = (Throw e, wi) →
  Middleware.express opts res next w = (Throw e, wi).
Proof. intros Hi. rewrite express_unfold. by apply andThen_Throw. Qed.

Lemma express_init_failure_witness :
  Middleware.express failing_init_opts new_EventEmitter
    (put_prop 0 "next" (VBool true)) live_binding_world
  = (Throw (Error "init failed"), live_binding_world).
Proof. apply (express_init_failure failing_init_opts). reflexivity. Defined.

(** X9. The middleware opens one scope on a deep copy of the store [init]
    returned and calls [onStart] there.  When [onStart] returns, [next] runs
    in the same scope with the finish handler registered for "finish" and
    for "close"; when [onStart] throws, [next] is not called and the error
    leaves the middleware.  In every case the store of the caller is current
    again at the end. *)
Theorem express_opens_scope opts res (next : M unit) w initial wi :
  Middleware.initial_store opts w = (Ret initial, wi) →
  closed (heap wi) → initial < length (heap wi) → on res = append_listener false →
  als (Middleware.express opts res next w).2 = als wi
  ∧ ∃ m c w1,
      als w1 = Some c
      ∧ length (heap wi) ≤ c
      ∧ fields (heap w1) c = rename m <$> fields (heap wi) initial
      ∧ (∀ x, reach (heap w1) c x → length (heap wi) ≤ x)
      ∧ (∀ i, i < length (heap wi) → heap w1 !! i = heap wi !! i)
      ∧ (∀ w2, Middleware.call_hook (Middleware.onStart_of opts) w1 = (Ret tt, w2) →
           als w2 = Some c →
           Middleware.express opts res next w
           = leave (als wi) ((next ;; ret (with_finish opts c res)) w2))
      ∧ (∀ e w2, Middleware.call_hook (Middleware.onStart_of opts) w1 = (Throw e, w2) →
           Middleware.express opts res next w = (Throw e, with_als (als wi) w2)).
Proof.
  intros Hi Hc Hl Hon. split.
  - rewrite express_unfold, (andThen_Ret _ _ _ _ _ Hi). apply clone_run_exit.
  - destruct (express_enter opts res next w initial wi Hi Hc Hl Hon)
      as (m & c & h1 & Hm & D & Hret & Hthrow).
    exists m, c, (World h1 (Some c)). simpl.
    pose proof (copy_fresh _ _ _ D _ _ Hm) as [_ Hf].
    destruct (copy_cells _ _ _ D _ _ Hm) as (o & Ho & Hcell & _).
    split; [done|]. split; [lia|]. split.
    { by rewrite (fields_lookup _ _ _ Ho), (fields_lookup _ _ _ Hcell). }
    split; [intros x Hx; by eapply deep_copy_reach_fresh|].
    split; [apply (copy_keeps _ _ _ D)|]. done.
Qed.

Lemma closed_test_world : closed (heap live_binding_world ++ [∅]).
Proof. refine (bool_decide_unpack _ _). vm_compute. exact I. Defined.

Lemma express_opens_scope_witness :
  als (Middleware.express None new_EventEmitter (Ctx.set None 1) live_binding_world).2
  = Some 0
  ∧ ∃ m c w1,
      als w1 = Some c ∧ 3 ≤ c
      ∧ fields (heap w1) c = rename m <$> ∅
      ∧ Middleware.express None new_EventEmitter (Ctx.set None 1) live_binding_world
        = leave (Some 0) ((Ctx.set None 1 ;; ret (with_finish None c new_EventEmitter)) w1).
Proof.
  destruct (express_opens_scope None new_EventEmitter (Ctx.set None 1)
              live_binding_world 2 (World (heap live_binding_world ++ [∅]) (Some 0)))
    as (Hals & m & c & w1 & Ha & Hc & Hf & _ & _ & Hret & _);
    [reflexivity|exact closed_test_world|simpl; lia|reflexivity|].
  split; [exact Hals|]. exists m, c, w1.
  split; [exact Ha|]. split; [exact Hc|]. split; [exact Hf|].
  apply Hret; [reflexivity|exact Ha].
Defined.

Lemma finish_close_table (h : listener) :
  let t := [Entry "finish" false h; Entry "close" false h] in
  filter (fun en => event en = "finish") t = [Entry "finish" false h]
  ∧ filter (fun en => event en = "close") t = [Entry "close" false h]
  ∧ filter (fun en => negb (bool_decide (event en = "finish") && once_only en) = true) t = t
  ∧ filter (fun en => negb (bool_decide (event en = "close") && once_only en) = true) t = t.
Proof. repeat split; reflexivity. Qed.

(** X10. When the middleware returns, the response has two more listeners,
    one for "finish" and one for "close", both the same handler and neither
    once-only: on a response that had no listener, each of the two events
    calls the handler, and the handler stays registered. *)
Theorem express_registers_finish opts res (next : M unit) w res' w' :
  Middleware.express opts res next w = (Ret res', w') →
  on res = append_listener false →
  ∃ h,
    listeners res' = listeners res ++ [Entry "finish" false h; Entry "close" false h]
    ∧ (listeners res = [] →
       ∀ args w2,
         emit res' "finish" args w2 = (_ <- h args ;; ret res') w2
         ∧ emit res' "close" args w2 = (_ <- h args ;; ret res') w2).
Proof.
  intros E Hon. rewrite express_unfold in E. unfold andThen at 1 in E.
  destruct (Middleware.initial_store opts w) as [[initial|e] wi]; [|done].
  unfold Ctx.run, andThen at 1 in E.
  destruct (structuredClone initial wi) as [[c|e] w1]; [|done].
  rewrite als_run_leave in E. unfold leave, andThen at 1 in E.
  destruct (Middleware.call_hook _ _) as [[[]|e] w2]; [|done].
  unfold andThen at 1 in E.
  destruct (Ctx.bind (Middleware.finish_callback opts) None w2) as [[h|e] w3] eqn:Eb;
    [|done].
  unfold register, andThen, ret in E. rewrite Hon in E. simpl in E.
  rewrite Hon in E. simpl in E.
  destruct (next w3) as [[[]|e] w4]; [|done]. simpl in E.
  injection E as <- <-. exists h. simpl. rewrite <- app_assoc. split; [done|].
  intros Hnil args w2'. rewrite Hnil.
  destruct (finish_close_table h) as (F1 & F2 & F3 & F4).
  unfold emit. cbn [listeners with_listeners app]. rewrite F1, F2, F3, F4.
  unfold andThen, ret, with_listeners. simpl. unfold andThen, ret.
  split; by destruct (h args w2') as [[v|e] w5].
Qed.

Lemma express_registers_finish_witness :
  ∃ res' w' h,
    Middleware.express None new_EventEmitter (ret tt) empty_world = (Ret res', w')
    ∧ listeners res' = [Entry "finish" false h; Entry "close" false h].
Proof.
  eexists _, _.
  destruct (express_registers_finish None new_EventEmitter (ret tt) empty_world _ _ eq_refl)
    as (h & Ht & _); [reflexivity|].
  exists h. split; [reflexivity|exact Ht].
Defined.

Lemma try_catch_noop_returns (body : M unit) w :
  (try_catch_noop body w).1 = Ret tt ∧ (try_catch_noop body w).2 = (body w).2.
Proof. unfold try_catch_noop. by destruct (body w) as [[[]|e] w']. Qed.

(** X11. An error of [onFinish] never leaves the finish handler.  A call
    returns undefined, whatever [onFinish] does, once the copy of the request
    store is made, as it is on plain data; it fails only with the
    [DataCloneError] of that copy, leaving the world as it was since
    [onFinish] has not been called, and does so when the request store holds
    a function.  Either way the store of the caller is current afterwards. *)
Theorem finish_handler_outcomes opts c args w2 :
  ((finish_handler opts c args w2).1 = Ret VUndef
   ∨ finish_handler opts c args w2 = (Throw DataCloneError, w2))
  ∧ als (finish_handler opts c args w2).2 = als w2
  ∧ (closed (heap w2) → c < length (heap w2) →
       (finish_handler opts c args w2).1 = Ret VUndef)
  ∧ (∀ k name, fields (heap w2) c !! k = Some (VFun name) →
       finish_handler opts c args w2 = (Throw DataCloneError, w2)).
Proof.
  assert (∀ c' w3, structuredClone c w2 = (Ret c', w3) →
            (finish_handler opts c args w2).1 = Ret VUndef
            ∧ als (finish_handler opts c args w2).2 = als w2) as Hcopy.
  { intros c' w3 E. unfold finish_handler, bound_to. simpl.
    rewrite (andThen_Ret _ _ _ _ _ E), als_run_leave. unfold leave. simpl.
    unfold Middleware.finish_callback, andThen, ret.
    destruct (try_catch_noop_returns
                (Middleware.call_hook (Middleware.onFinish_of opts))
                (with_als (Some c') w3)) as [Hr _].
    destruct (try_catch_noop _ _) as [[[]|e] w4]; simpl in *; [|done].
    split; [done|]. destruct (structuredClone_cases c w2) as [E'|(? & ? & E' & _)];
      rewrite E' in E; by simplify_eq. }
  assert (structuredClone c w2 = (Throw DataCloneError, w2) →
          finish_handler opts c args w2 = (Throw DataCloneError, w2)) as Hfail.
  { intros E. unfold finish_handler, bound_to. simpl.
    by rewrite (andThen_Throw _ _ _ _ _ E). }
  split; [|split; [|split]].
  - destruct (structuredClone_cases c w2) as [E|(c' & h' & E & _)].
    + right. by apply Hfail.
    + left. by apply (Hcopy _ _ E).
  - destruct (structuredClone_cases c w2) as [E|(c' & h' & E & _)].
    + by rewrite (Hfail E).
    + by apply (Hcopy _ _ E).
  - intros Hc Hl. destruct (structuredClone_spec w2 c Hc Hl) as (m & h' & c' & E & _).
    by apply (Hcopy _ _ E).
  - intros k name Hk. apply Hfail. by eapply structuredClone_function.
Qed.

Lemma finish_handler_outcomes_witness :
  (finish_handler
     (Some {| Middleware.init := None; Middleware.onStart := None;
              Middleware.onFinish := Some (fun _ => throw (Error "late")) |})
     0 [] live_binding_world).1 = Ret VUndef
  ∧ finish_handler None 1 [] logger_world = (Throw DataCloneError, logger_world).
Proof.
  split.
  - apply finish_handler_outcomes; [|simpl; lia].
    refine (bool_decide_unpack _ _). vm_compute. exact I.
  - apply (finish_handler_outcomes None 1 [] logger_world) with (k := "log") (name := "console.log").
    reflexivity.
Defined.

(** X12. The finish handler hands [onFinish] a deep copy of the request
    store made when the event is emitted: [onFinish] reads the properties
    the store has at that moment, and what it ends with is what the call
    leaves behind. *)
Theorem finish_handler_sees_latest opts f c args w2 :
  Middleware.onFinish_of opts = Some f →
  closed (heap w2) → c < length (heap w2) →
  ∃ m c' w3,
    m !! c = Some c' ∧ deep_copy (heap w2) (heap w3) m
    ∧ als w3 = Some c'
    ∧ fields (heap w3) c' = rename m <$> fields (heap w2) c
    ∧ (finish_handler opts c args w2).2 = with_als (als w2) (f (VRef c') w3).2.
Proof.
  intros Hf Hc Hl.
  destruct (structuredClone_spec w2 c Hc Hl) as (m & h' & c' & E & Hm & D).
  exists m, c', (World h' (Some c')). simpl.
  destruct (copy_cells _ _ _ D _ _ Hm) as (o & Ho & Hcell & _).
  split; [done|]. split; [done|]. split; [done|]. split.
  { by rewrite (fields_lookup _ _ _ Ho), (fields_lookup _ _ _ Hcell). }
  unfold finish_handler, bound_to. simpl.
  rewrite (andThen_Ret _ _ _ _ _ E), als_run_leave. unfold leave. simpl.
  unfold Middleware.finish_callback. rewrite Hf.
  unfold andThen at 1, ret.
  destruct (try_catch_noop_returns (Middleware.call_hook (Some f))
              (with_als (Some c') (with_heap h' w2))) as [Hr Hw].
  destruct (try_catch_noop _ _) as [[[]|e] w4]; simpl in *; [|done].
  rewrite Hw. unfold Middleware.call_hook. by ctx_unfold.
Qed.

Lemma finish_handler_sees_latest_witness :
  ∃ m c' w3,
    m !! 0 = Some c' ∧ als w3 = Some c'
    ∧ fields (heap w3) c' = rename m <$> {[ "x" := VNum 2 ]}.
Proof.
  destruct (finish_handler_sees_latest
              (Some {| Middleware.init := None; Middleware.onStart := None;
                       Middleware.onFinish := Some (fun _ => ret tt) |})
              (fun _ => ret tt) 0 []
              (Ctx.set None 1 live_binding_world).2)
    as (m & c' & w3 & Hm & _ & Ha & Hf & _).
  - reflexivity.
  - refine (bool_decide_unpack _ _). vm_compute. exact I.
  - vm_compute. lia.
  - exists m, c', w3. split; [exact Hm|]. split; [exact Ha|].
    rewrite Hf. reflexivity.
Defined.

(** X13. With no options, or with options that have no [init], the scope
    the middleware opens has an empty store. *)
Theorem express_without_init opts res (next : M unit) w :
  (∀ o, opts = Some o → Middleware.init o = None) →
  closed (heap w) → on res = append_listener false →
  ∃ c w1,
    als w1 = Some c ∧ length (heap w) < c ∧ fields (heap w1) c = ∅
    ∧ ∀ w2, Middleware.call_hook (Middleware.onStart_of opts) w1 = (Ret tt, w2) →
        als w2 = Some c →
        Middleware.express opts res next w
        = leave (als w) ((next ;; ret (with_finish opts c res)) w2).
Proof.
  intros Hno Hc Hon.
  assert (Middleware.initial_store opts w
          = (Ret (length (heap w)), with_heap (heap w ++ [∅]) w)) as Hi.
  { unfold Middleware.initial_store. destruct opts as [[i s f]|]; [|done].
    specialize (Hno _ eq_refl). simpl in Hno. by subst i. }
  destruct (express_enter opts res next w _ _ Hi) as (m & c & h1 & Hm & D & Hret & _).
  - simpl. apply closed_snoc; [done|done|]. intros x Hx. by apply children_empty in Hx.
  - simpl. rewrite length_app. simpl. lia.
  - done.
  - exists c, (World h1 (Some c)). simpl in *.
    pose proof (copy_fresh _ _ _ D _ _ Hm) as [_ Hf]. rewrite length_app in Hf.
    destruct (copy_cells _ _ _ D _ _ Hm) as (o & Ho & Hcell & _).
    rewrite list_lookup_middle in Ho by done. injection Ho as <-.
    split; [done|]. split; [simpl in Hf; lia|]. split.
    + rewrite (fields_lookup _ _ _ Hcell). by rewrite fmap_empty.
    + done.
Qed.

Lemma express_without_init_witness :
  ∃ c w1,
    als w1 = Some c ∧ fields (heap w1) c = ∅
    ∧ Middleware.express None new_EventEmitter (put_prop 0 "seen" VNull)
        live_binding_world
      = leave (Some 0)
          ((put_prop 0 "seen" VNull ;; ret (with_finish None c new_EventEmitter)) w1).
Proof.
  destruct (express_without_init None new_EventEmitter (put_prop 0 "seen" VNull)
              live_binding_world) as (c & w1 & Ha & _ & Hf & Hret).
  - intros o Ho. discriminate Ho.
  - refine (bool_decide_unpack _ _). vm_compute. exact I.
  - reflexivity.
  - exists c, w1. split; [exact Ha|]. split; [exact Hf|].
    apply Hret; [reflexivity|exact Ha].
Defined.

(** ** What a function bound without [live] reads *)

(** X14. A getter bound without [live] reads the captured store as it is
    when the getter is called: a property that holds no reference is
    returned as the store has it at the call, whatever store is current. *)
Theorem snapshot_call_reads_at_call opts w c k w2 :
  Ctx.is_live opts = false → als w = Some c →
  closed (heap w2) → c < length (heap w2) →
  (∀ l, fields (heap w2) c !! k ≠ Some (VRef l)) →
  ∃ bound,
    Ctx.bind (fun _ : unit => Ctx.get (Some k)) opts w = (Ret bound, w)
    ∧ (bound tt w2).1 = Ret (get_property (fields (heap w2) c) k).
Proof.
  intros Hlive Ha Hc Hl Hprim. eexists. split; [by apply bind_in_scope|].
  rewrite Hlive.
  destruct (structuredClone_spec w2 c Hc Hl) as (m & h' & c' & E & Hm & D).
  rewrite (andThen_Ret _ _ _ _ _ E), als_run_leave. unfold leave.
  rewrite (get_key_in_scope k _ c') by done. simpl.
  destruct (copy_cells _ _ _ D _ _ Hm) as (o & Ho & Hcell & _).
  rewrite (fields_lookup _ _ _ Hcell). rewrite (fields_lookup _ _ _ Ho) in *.
  unfold get_property. rewrite lookup_fmap.
  destruct (o !! k) as [v|]; [|done]. simpl.
  destruct v; try done. exfalso. by eapply Hprim.
Qed.

Lemma snapshot_call_reads_at_call_witness :
  ∃ bound,
    Ctx.bind (fun _ : unit => Ctx.get (Some "x")) None live_binding_world
    = (Ret bound, live_binding_world)
    ∧ (bound tt (with_als None (Ctx.set None 1 live_binding_world).2)).1
      = Ret (VNum 2).
Proof.
  destruct (snapshot_call_reads_at_call None live_binding_world 0 "x"
              (with_als None (Ctx.set None 1 live_binding_world).2))
    as (bound & Hb & Hr).
  - reflexivity.
  - reflexivity.
  - refine (bool_decide_unpack _ _). vm_compute. exact I.
  - vm_compute. lia.
  - intros l. vm_compute. discriminate.
  - exists bound. split; [exact Hb|]. rewrite Hr. vm_compute. reflexivity.
Defined.

(** Both events emitted: [onFinish] is called twice. *)
Example test_middleware_both_events :
  ((l <- test_middleware true ;; ret (l.1 !! "n")) empty_world).1
  = Ret (Some (VNum 4)).
Proof. vm_compute. reflexivity. Qed.
